(** * verify_mdi_codepoints.py: a shallow embedding and its properties

    The script cross-checks the icon codepoints declared in
    [regen_mdi_fonts.sh] against the Pictogrammers metadata table.  This
    file embeds [scripts/verify_mdi_codepoints.py] function by function
    and proves the properties its specification states.

    Modelling choices.
    - A Python [str] is a [list ascii].  The files involved are ASCII
      text; the case maps and the white-space class are Python's ones
      restricted to the ASCII range.
    - A Python [dict] is an association list kept in insertion order
      ([.items()] iterates in that order, and the script relies on it when
      it inverts the index).
    - [print] and [sys.exit] are the two effects of the script: they are
      threaded by a small output/exit monad.
    - [re] is embedded as a backtracking matcher over the fragment of
      regular expressions the script's pattern uses. *)

From Stdlib Require Import List Bool Arith Lia Sorted.
From Stdlib Require Import Strings.Ascii Strings.String Numbers.DecimalString.
Import ListNotations.

Set Implicit Arguments.

(** ** Python strings *)

Definition str := list ascii.

(** String literals. *)
Definition lit (s : string) : str := list_ascii_of_string s.

Module Str.

Definition code (c : ascii) : nat := nat_of_ascii c.

Definition between (lo hi : nat) (c : ascii) : bool :=
  (lo <=? code c) && (code c <=? hi).

(** [str.isspace] on one ASCII character: TAB, LF, VT, FF, CR, the
    four separators FS, GS, RS, US, and the space. *)
Definition isspace (c : ascii) : bool :=
  between 9 13 c || between 28 32 c.

Definition isupper (c : ascii) : bool := between 65 90 c.
Definition islower (c : ascii) : bool := between 97 122 c.

Definition lower_char (c : ascii) : ascii :=
  if isupper c then ascii_of_nat (code c + 32) else c.

Definition upper_char (c : ascii) : ascii :=
  if islower c then ascii_of_nat (code c - 32) else c.

(** [s.lower()] and [s.upper()]. *)
Definition lower (s : str) : str := map lower_char s.
Definition upper (s : str) : str := map upper_char s.

(** [a == b]. *)
Fixpoint eqb (a b : str) : bool :=
  match a, b with
  | [], [] => true
  | x :: a', y :: b' => Ascii.eqb x y && eqb a' b'
  | _, _ => false
  end.

(** [s.startswith(p)]. *)
Fixpoint startswith (s p : str) {struct p} : bool :=
  match p, s with
  | [], _ => true
  | x :: p', y :: s' => Ascii.eqb x y && startswith s' p'
  | _ :: _, [] => false
  end.

(** [p in s]: [p] occurs in [s] as a substring. *)
Fixpoint contains (s p : str) : bool :=
  startswith s p ||
  match s with
  | [] => false
  | _ :: s' => contains s' p
  end.

(** [s.lstrip()], [s.rstrip()], [s.strip()]. *)
Fixpoint lstrip (s : str) : str :=
  match s with
  | [] => []
  | c :: s' => if isspace c then lstrip s' else s
  end.

Fixpoint rstrip (s : str) : str :=
  match s with
  | [] => []
  | c :: s' =>
      match rstrip s' with
      | [] => if isspace c then [] else [c]
      | r => c :: r
      end
  end.

Definition strip (s : str) : str := rstrip (lstrip s).

(** [s.split(sep)[0]] for a non-empty [sep]: the text before the first
    occurrence of [sep], all of [s] when there is none. *)
Fixpoint split_head (sep s : str) : str :=
  match s with
  | [] => []
  | c :: s' => if startswith s sep then [] else c :: split_head sep s'
  end.

(** [s.replace(old, new)] for a one-character [old] and [new]. *)
Definition replace_char (old new : ascii) (s : str) : str :=
  map (fun c => if Ascii.eqb c old then new else c) s.

(** [s.replace(old, new)] for a non-empty [old]: the occurrences are
    replaced from left to right and do not overlap.  [skip] counts the
    characters of an occurrence that are still to be dropped. *)
Fixpoint replace_from (old new : str) (skip : nat) (s : str) : str :=
  match s with
  | [] => []
  | c :: s' =>
      match skip with
      | S n => replace_from old new n s'
      | O =>
          if startswith s old
          then new ++ replace_from old new (List.length old - 1) s'
          else c :: replace_from old new 0 s'
      end
  end.

Definition replace (old new s : str) : str := replace_from old new 0 s.

(** [str(n)] for a non-negative integer. *)
Definition of_nat (n : nat) : str :=
  lit (NilEmpty.string_of_uint (Nat.to_uint n)).

End Str.

(** ** The name normalizer *)

(** [extract_icon_name_from_comment(comment)]. *)
Definition extract_icon_name_from_comment (comment : str) : str :=
  let name := Str.strip (Str.split_head (lit "(") comment) in
  let name := Str.strip (Str.split_head (lit " - ") name) in
  Str.strip (Str.lower name).

(** ** The fragment of [re] the script uses

    A backtracking matcher in continuation-passing style: the
    continuation [k] is the rest of the pattern, and a quantifier tries
    its alternatives in Python's order (greedy: the longest first).
    Captured groups are collected in the order they close. *)

Module Re.

(** The empty pattern, one character of a class, [r1 r2], [r?], [c*] for
    a class [c], and a capturing group [(r)]. *)
Inductive regex : Type :=
| Eps
| Chr (p : ascii -> bool)
| Cat (r1 r2 : regex)
| Opt (r : regex)
| Star (p : ascii -> bool)
| Group (r : regex).

(** [c*] for a character class, greedy. *)
Fixpoint star (A : Type) (p : ascii -> bool) (s : str)
    (k : str -> option A) : option A :=
  match s with
  | c :: s' =>
      if p c then
        match star p s' k with
        | Some x => Some x
        | None => k s
        end
      else k s
  | [] => k s
  end.

Fixpoint bt (A : Type) (r : regex) (s : str) (g : list str)
    (k : str -> list str -> option A) : option A :=
  match r with
  | Eps => k s g
  | Chr p =>
      match s with
      | c :: s' => if p c then k s' g else None
      | [] => None
      end
  | Cat r1 r2 => bt r1 s g (fun s' g' => bt r2 s' g' k)
  | Opt r1 =>
      match bt r1 s g k with
      | Some x => Some x
      | None => k s g
      end
  | Star p => star p s (fun s' => k s' g)
  | Group r1 =>
      bt r1 s g
         (fun s' g' => k s' (g' ++ [firstn (List.length s - List.length s') s]))
  end.

(** The end of the pattern: the match is found, with these groups. *)
Definition found (_ : str) (g : list str) : option (list str) := Some g.

(** [pattern.search(s)]: the first start position, from the left, at
    which the pattern matches; the value is the list of groups. *)
Fixpoint search (r : regex) (s : str) : option (list str) :=
  match bt r s [] found with
  | Some m => Some m
  | None =>
      match s with
      | [] => None
      | _ :: s' => search r s'
      end
  end.

(** [match.group(n)] for [n >= 1]. *)
Definition group (m : list str) (n : nat) : str := nth (n - 1) m [].

(** Derived forms. *)
Fixpoint Lit (s : str) : regex :=
  match s with
  | [] => Eps
  | c :: s' => Cat (Chr (Ascii.eqb c)) (Lit s')
  end.

Definition Plus (p : ascii -> bool) : regex := Cat (Chr p) (Star p).

(** Character classes. *)
Definition LF : ascii := ascii_of_nat 10.
Definition CR : ascii := ascii_of_nat 13.
Definition dquote : ascii := ascii_of_nat 34.

Definition dot (c : ascii) : bool := negb (Ascii.eqb c LF).
Definition space (c : ascii) : bool := Str.isspace c.
Definition hexdigit (c : ascii) : bool :=
  Str.between 48 57 c || Str.between 65 70 c || Str.between 97 102 c.

(** What a match is, without the order of the search: [matches r s g g']
    says that [r] can consume exactly [s] and turn the captures [g] into
    [g']. *)
Inductive matches : regex -> str -> list str -> list str -> Prop :=
| m_eps g : matches Eps [] g g
| m_chr p c g : p c = true -> matches (Chr p) [c] g g
| m_cat r1 r2 s1 s2 g g1 g2 :
    matches r1 s1 g g1 -> matches r2 s2 g1 g2 ->
    matches (Cat r1 r2) (s1 ++ s2) g g2
| m_opt_some r s g g' : matches r s g g' -> matches (Opt r) s g g'
| m_opt_none r g : matches (Opt r) [] g g
| m_star p s g : forallb p s = true -> matches (Star p) s g g
| m_group r s g g' : matches r s g g' -> matches (Group r) s g (g' ++ [s]).

End Re.

Declare Scope re_scope.
Delimit Scope re_scope with re.
Infix ">>" := Re.Cat (at level 61, right associativity) : re_scope.

(** ** Python dictionaries with string keys, in insertion order *)

Module Dict.

Definition dict := list (str * str).

(** [d[k]], [None] standing for [KeyError]; [k in d] is [get d k <> None]. *)
Fixpoint get (d : dict) (k : str) : option str :=
  match d with
  | [] => None
  | (k', v) :: d' => if Str.eqb k' k then Some v else get d' k
  end.

Definition mem (d : dict) (k : str) : bool :=
  match get d k with Some _ => true | None => false end.

(** [d[k] = v]: an existing key keeps its place, a new one goes last. *)
Fixpoint set (d : dict) (k v : str) : dict :=
  match d with
  | [] => [(k, v)]
  | (k', v') :: d' =>
      if Str.eqb k' k then (k', v) :: d' else (k', v') :: set d' k v
  end.

Definition items (d : dict) : list (str * str) := d.
Definition keys (d : dict) : list str := map fst d.

End Dict.

(** ** Output and exit *)

Inductive outcome (A : Type) : Type :=
| Returned (a : A)
| Exited (status : nat).

Arguments Exited {A} status.

(** A computation takes the lines printed so far and gives its outcome
    and the lines printed when it stops. *)
Definition Run (A : Type) : Type := list str -> outcome A * list str.

Definition ret (A : Type) (a : A) : Run A := fun out => (Returned a, out).

Definition bind (A B : Type) (m : Run A) (f : A -> Run B) : Run B :=
  fun out =>
    match m out with
    | (Returned a, out') => f a out'
    | (Exited n, out') => (Exited n, out')
    end.

Definition print (s : str) : Run unit := fun out => (Returned tt, out ++ [s]).

Definition sys_exit (A : Type) (status : nat) : Run A :=
  fun out => (Exited status, out).

Arguments sys_exit {A} status.

Declare Scope run_scope.
Delimit Scope run_scope with run.
Notation "x <- m ;; f" := (bind m (fun x => f))
  (at level 62, m at next level, right associativity) : run_scope.
Notation "m ;; f" := (bind m (fun _ => f))
  (at level 62, right associativity) : run_scope.

(** [for x in l: body x]. *)
Fixpoint for_each (A : Type) (l : list A) (body : A -> Run unit) : Run unit :=
  match l with
  | [] => ret tt
  | x :: l' => (body x ;; for_each l' body)%run
  end.

(** ** The script *)

Local Open Scope char_scope.

(** An icon record of the metadata file: a JSON object whose two fields,
    when present, are strings.  [None] is an absent key. *)
Record IconRecord : Type := {
  icon_codepoint : option str;
  icon_name : option str
}.

(** [icon.get(key, '')]. *)
Definition get_or_empty (field : option str) : str :=
  match field with
  | Some s => s
  | None => []
  end.

(** The truth value of a string: it is not empty. *)
Definition truthy (s : str) : bool :=
  match s with
  | [] => false
  | _ :: _ => true
  end.

(** The body of the loop of [build_codepoint_lookup]. *)
Definition lookup_step (lookup : Dict.dict) (icon : IconRecord) : Dict.dict :=
  let cp := Str.upper (get_or_empty (icon_codepoint icon)) in
  let name := get_or_empty (icon_name icon) in
  if truthy cp && truthy name then Dict.set lookup cp name else lookup.

(** [build_codepoint_lookup(mdi_data)]. *)
Definition build_codepoint_lookup (mdi_data : list IconRecord) : Dict.dict :=
  fold_left lookup_step mdi_data [].

(** [{v: k for k, v in cp_to_name.items()}]. *)
Definition invert (cp_to_name : Dict.dict) : Dict.dict :=
  fold_left (fun d kv => Dict.set d (snd kv) (fst kv)) (Dict.items cp_to_name) [].

(** An element of [entries]. *)
Record Entry : Type := {
  line : nat;
  codepoint : str;
  comment : str;
  raw : str
}.

(** [MDI_ICONS\+?=.*"?,?(0x[A-Fa-f0-9]+)"?\s*#\s*(.+)] *)
Definition pattern : Re.regex :=
  (Re.Lit (lit "MDI_ICONS") >> Re.Opt (Re.Chr (Ascii.eqb "+")) >>
   Re.Chr (Ascii.eqb "=") >> Re.Star Re.dot >>
   Re.Opt (Re.Chr (Ascii.eqb Re.dquote)) >> Re.Opt (Re.Chr (Ascii.eqb ",")) >>
   Re.Group (Re.Lit (lit "0x") >> Re.Plus Re.hexdigit) >>
   Re.Opt (Re.Chr (Ascii.eqb Re.dquote)) >> Re.Star Re.space >>
   Re.Chr (Ascii.eqb "#") >> Re.Star Re.space >>
   Re.Group (Re.Plus Re.dot))%re.

(** The pattern in three parts: what comes before [.*], and what comes
    after it. *)
Definition head_pattern : Re.regex :=
  (Re.Lit (lit "MDI_ICONS") >> Re.Opt (Re.Chr (Ascii.eqb "+")) >>
   Re.Chr (Ascii.eqb "="))%re.

Definition site_pattern : Re.regex :=
  (Re.Opt (Re.Chr (Ascii.eqb Re.dquote)) >> Re.Opt (Re.Chr (Ascii.eqb ",")) >>
   Re.Group (Re.Lit (lit "0x") >> Re.Plus Re.hexdigit) >>
   Re.Opt (Re.Chr (Ascii.eqb Re.dquote)) >> Re.Star Re.space >>
   Re.Chr (Ascii.eqb "#") >> Re.Star Re.space >>
   Re.Group (Re.Plus Re.dot))%re.

(** The text of a file opened in text mode: [\r\n] and [\r] read as [\n]. *)
Fixpoint universal_newlines (s : str) : str :=
  match s with
  | [] => []
  | c :: s' =>
      if Ascii.eqb c Re.CR then
        Re.LF ::
        match s' with
        | c' :: s'' =>
            if Ascii.eqb c' Re.LF then universal_newlines s''
            else universal_newlines s'
        | [] => []
        end
      else c :: universal_newlines s'
  end.

(** The lines a file object yields: each keeps its final [\n]. *)
Fixpoint lines_of (s : str) : list str :=
  match s with
  | [] => []
  | c :: s' =>
      if Ascii.eqb c Re.LF then [c] :: lines_of s'
      else
        match lines_of s' with
        | [] => [[c]]
        | l :: ls => (c :: l) :: ls
        end
  end.

Definition readlines (contents : str) : list str :=
  lines_of (universal_newlines contents).

(** [enumerate(l, start)]. *)
Fixpoint enumerate (A : Type) (start : nat) (l : list A) : list (nat * A) :=
  match l with
  | [] => []
  | x :: l' => (start, x) :: enumerate (S start) l'
  end.

(** The body of the loop of [parse_regen_script] on one line: the entry
    it appends, if the pattern matches. *)
Definition parse_line (line_num : nat) (ln : str) : option Entry :=
  match Re.search pattern ln with
  | Some m =>
      Some {| line := line_num;
              codepoint := Str.replace (lit "0X") [] (Str.upper (Re.group m 1));
              comment := Str.strip (Re.group m 2);
              raw := Str.strip ln |}
  | None => None
  end.

(** [parse_regen_script], on the contents of the file at [script_path]. *)
Definition parse_regen_script (contents : str) : list Entry :=
  fold_left
    (fun entries nl =>
       match parse_line (fst nl) (snd nl) with
       | Some e => entries ++ [e]
       | None => entries
       end)
    (enumerate 1 (readlines contents)) [].

(** An element of [errors]. *)
Inductive Error : Type :=
| INVALID (ln : nat) (cp comment message : str)
| MISMATCH (ln : nat) (cp claimed actual comment : str).

(** The body of the verification loop of [main], on the pair
    ([errors], [ok_count]). *)
Definition verify_entry (cp_to_name : Dict.dict)
    (st : list Error * nat) (entry : Entry) : list Error * nat :=
  let (errors, ok_count) := st in
  let cp := codepoint entry in
  let comment := comment entry in
  let claimed_name := extract_icon_name_from_comment comment in
  match Dict.get cp_to_name cp with
  | None =>
      (errors ++ [INVALID (line entry) cp comment
                    (lit "Codepoint " ++ cp ++ lit " does not exist in MDI!")],
       ok_count)
  | Some actual_name =>
      let claimed_normalized :=
        Str.replace_char " " "-" (Str.replace_char "_" "-" claimed_name) in
      if Str.eqb claimed_normalized actual_name then (errors, S ok_count)
      else if Str.startswith actual_name claimed_normalized
              || Str.contains actual_name claimed_normalized
      then (errors, S ok_count)
      else
        (errors ++ [MISMATCH (line entry) cp claimed_name actual_name comment],
         ok_count)
  end.

Definition verify (cp_to_name : Dict.dict) (entries : list Entry)
    : list Error * nat :=
  fold_left (verify_entry cp_to_name) entries ([], 0).

(** The block printed for one error. *)
Definition report_error (name_to_cp : Dict.dict) (err : Error) : Run unit :=
  match err with
  | INVALID ln cp comment _ =>
      (print (lit "  Line " ++ Str.of_nat ln ++ lit ": INVALID CODEPOINT") ;;
       print (lit "    Codepoint: 0x" ++ cp) ;;
       print (lit "    Comment: " ++ comment) ;;
       print [])%run
  | MISMATCH ln cp claimed actual _ =>
      (print (lit "  Line " ++ Str.of_nat ln ++ lit ": NAME MISMATCH") ;;
       print (lit "    Codepoint: 0x" ++ cp) ;;
       print (lit "    Comment says: " ++ claimed) ;;
       print (lit "    Actually is:  " ++ actual) ;;
       match Dict.get name_to_cp (Str.replace_char "_" "-" claimed) with
       | Some correct_cp =>
           print (lit "    → '" ++ claimed ++ lit "' is at 0x" ++ correct_cp)
       | None => ret tt
       end ;;
       print [])%run
  end.

Definition rule : str := repeat "=" 70.

(** The files the script can see: the contents of each path that exists. *)
Definition FileSystem : Type := str -> option str.

Section Script.

(** [script_dir / "regen_mdi_fonts.sh"] and the path of the cache. *)
Variables regen_script MDI_CACHE_FILE : str.

(** [json.load] on the text [gzip.open] gives: the exception raised, or
    the list of records. *)
Variable json_gz_load : str -> str + list IconRecord.

Variable fs : FileSystem.

(** [fetch_mdi_metadata()]. *)
Definition fetch_mdi_metadata : Run (list IconRecord) :=
  match fs MDI_CACHE_FILE with
  | None =>
      (print (lit "ERROR: MDI metadata cache not found at " ++ MDI_CACHE_FILE) ;;
       print (lit "   Run: make update-mdi-cache") ;;
       sys_exit 2)%run
  | Some bytes =>
      (print (lit "Loading MDI metadata from cache...") ;;
       match json_gz_load bytes with
       | inr data =>
           print (lit "  Found " ++ Str.of_nat (List.length data)
                  ++ lit " icons in MDI library") ;;
           ret data
       | inl e =>
           print (lit "ERROR: Failed to load MDI metadata: " ++ e) ;;
           sys_exit 2
       end)%run
  end.

(** [main()]: its value is the status the script exits with. *)
Definition main : Run nat :=
  match fs regen_script with
  | None =>
      (print (lit "ERROR: Cannot find " ++ regen_script) ;;
       sys_exit 1)%run
  | Some contents =>
      (mdi_data <- fetch_mdi_metadata ;;
       let cp_to_name := build_codepoint_lookup mdi_data in
       let name_to_cp := invert cp_to_name in
       print ([Re.LF] ++ lit "Parsing " ++ regen_script ++ lit "...") ;;
       let entries := parse_regen_script contents in
       print (lit "  Found " ++ Str.of_nat (List.length entries)
              ++ lit " icon entries" ++ [Re.LF]) ;;
       let (errors, ok_count) := verify cp_to_name entries in
       print rule ;;
       print (lit "VERIFICATION RESULTS") ;;
       print rule ;;
       print ([Re.LF] ++ lit "✓ OK: " ++ Str.of_nat ok_count
              ++ lit " icons verified correctly") ;;
       match errors with
       | _ :: _ =>
           print ([Re.LF] ++ lit "✗ ERRORS: " ++ Str.of_nat (List.length errors)
                  ++ lit " icons have issues:" ++ [Re.LF]) ;;
           for_each errors (report_error name_to_cp)
       | [] =>
           print ([Re.LF] ++ lit "✓ All icon names match their codepoints!")
       end ;;
       print rule ;;
       ret (match errors with _ :: _ => 1 | [] => 0 end))%run
  end.

(** [sys.exit(main())]: the lines printed and the exit status. *)
Definition script : list str * nat :=
  match (status <- main ;; sys_exit (A := unit) status)%run [] with
  | (Exited status, out) => (out, status)
  | (Returned _, out) => (out, 0)
  end.

End Script.

(** ** The specification's wording, for comparison *)

(** The normalizer as the specification words it: the text before the
    first parenthesis, then the text of that before the first " - ",
    lowercased and trimmed. *)
Definition normalizer_as_specified (comment : str) : str :=
  Str.strip
    (Str.lower (Str.split_head (lit " - ") (Str.split_head (lit "(") comment))).

(** The claimed name the verifier compares: the normalizer's output with
    underscores and spaces turned into hyphens ([claimed_normalized]). *)
Definition claimed_normalized_of (comment : str) : str :=
  Str.replace_char " " "-"
    (Str.replace_char "_" "-" (extract_icon_name_from_comment comment)).

(** A record the lookup builder keeps: both fields are there and neither
    is the empty string. *)
Definition retained (icon : IconRecord) : bool :=
  truthy (get_or_empty (icon_codepoint icon))
  && truthy (get_or_empty (icon_name icon)).

(** The key a retained record is stored under. *)
Definition key_of (icon : IconRecord) : str :=
  Str.upper (get_or_empty (icon_codepoint icon)).

(** ** Sample data

    The metadata and the declarations of the specification's end-to-end
    scenarios. *)

Definition sample_metadata : list IconRecord :=
  [ {| icon_codepoint := Some (lit "f0006"); icon_name := Some (lit "account") |};
    {| icon_codepoint := Some (lit "F02DC"); icon_name := Some (lit "home") |} ].

Definition sample_index : Dict.dict := build_codepoint_lookup sample_metadata.

Definition sample_entry (cp text : string) : Entry :=
  {| line := 1; codepoint := lit cp; comment := lit text; raw := [] |}.

(** The lines the parser recognizes, said without the matcher: somewhere
    in the line stands [MDI_ICONS], an optional [+], [=], any text, [0x]
    and hexadecimal digits, an optional double quote, optional white
    space, [#], optional white space and at least one more character.
    (The optional quote and comma before [0x] are part of "any text".) *)
Definition declaration_shape (ln : str) : Prop :=
  exists pre plus mid hex q ws1 ws2 text post,
    ln = pre ++ lit "MDI_ICONS" ++ plus ++ lit "=" ++ mid ++ lit "0x" ++ hex
         ++ q ++ ws1 ++ lit "#" ++ ws2 ++ text ++ post /\
    (plus = [] \/ plus = lit "+") /\
    forallb Re.dot mid = true /\
    hex <> [] /\ forallb Re.hexdigit hex = true /\
    (q = [] \/ q = [Re.dquote]) /\
    forallb Re.space ws1 = true /\
    forallb Re.space ws2 = true /\
    text <> [] /\ forallb Re.dot text = true.

(** [0x] stands somewhere in the string and a [#] stands later: every text
    the part of the pattern after [.*] matches is like that. *)
Fixpoint zx_hash (s : str) : bool :=
  match s with
  | [] => false
  | c1 :: s' =>
      match s' with
      | c2 :: r => Ascii.eqb "0" c1 && Ascii.eqb "x" c2 && existsb (Ascii.eqb "#") r
      | [] => false
      end
      || zx_hash s'
  end.

(** The entries of the lines [lines], numbered from [start], as a list
    comprehension: the loop of [parse_regen_script] computes this. *)
Fixpoint entries_from (start : nat) (lines : list str) : list Entry :=
  match lines with
  | [] => []
  | ln :: lines' =>
      match parse_line start ln with
      | Some e => e :: entries_from (S start) lines'
      | None => entries_from (S start) lines'
      end
  end.


(** A run on sample files: the two paths, a loader that accepts one
    cache text, and a file system holding at most the two files. *)
Definition sample_regen_script : str := lit "scripts/regen_mdi_fonts.sh".
Definition sample_cache_file : str := lit "assets/mdi-icon-metadata.json.gz".

Definition sample_load (bytes : str) : str + list IconRecord :=
  if Str.eqb bytes (lit "metadata") then inr sample_metadata
  else inl (lit "Not a gzipped file").

Definition sample_fs (declarations cache : option str) : FileSystem :=
  fun path =>
    if Str.eqb path sample_regen_script then declarations
    else if Str.eqb path sample_cache_file then cache
    else None.

(** The declaration line [MDI_ICONS+=",0x<cp>" # <text>]. *)
Definition sample_line (cp text : string) : str :=
  lit "MDI_ICONS+=" ++ [Re.dquote] ++ lit ",0x" ++ lit cp ++ [Re.dquote]
  ++ lit " # " ++ lit text.

Definition sample_run (declarations cache : option str) : list str * nat :=
  script sample_regen_script sample_cache_file sample_load
    (sample_fs declarations cache).

(** The same files next to one more file. *)
Definition sample_fs_more (declarations cache : option str) : FileSystem :=
  fun path =>
    if Str.eqb path (lit "scripts/notes.txt") then Some (lit "unrelated")
    else sample_fs declarations cache path.

(** The declarations of the three end-to-end scenarios, one per line. *)
Definition sample_declarations : str :=
  lit "#!/bin/sh" ++ [Re.LF]
  ++ sample_line "F0006" "account" ++ [Re.LF]
  ++ sample_line "F0006" "home" ++ [Re.CR; Re.LF]
  ++ sample_line "fffff" "account (person)" ++ [Re.LF].

(** The metadata cache cannot be used: it is missing, or loading it
    raises an exception. *)
Definition cache_unusable (MDI_CACHE_FILE : str)
    (json_gz_load : str -> str + list IconRecord) (fs : FileSystem) : Prop :=
  fs MDI_CACHE_FILE = None \/
  exists bytes e, fs MDI_CACHE_FILE = Some bytes /\ json_gz_load bytes = inl e.

(** The errors and the count of verified entries of a run that gets as
    far as comparing: both files are there and the cache loads. *)
Definition verification (regen_script MDI_CACHE_FILE : str)
    (json_gz_load : str -> str + list IconRecord) (fs : FileSystem)
    : option (list Error * nat) :=
  match fs regen_script, fs MDI_CACHE_FILE with
  | Some contents, Some bytes =>
      match json_gz_load bytes with
      | inr data =>
          Some (verify (build_codepoint_lookup data) (parse_regen_script contents))
      | inl _ => None
      end
  | _, _ => None
  end.

(** ** Notions the statements use *)

(** The first character of a string, if any, is not white space. *)
Definition starts_clean (s : str) : Prop :=
  match s with
  | [] => True
  | c :: _ => Str.isspace c = false
  end.

(** The text before the first separator, said without the function: either
    there is no separator and the text is the whole string, or the string
    splits at a separator and no separator begins earlier. *)
Definition is_head (sep s head : str) : Prop :=
  (Str.contains s sep = false /\ head = s) \/
  (exists rest, s = head ++ sep ++ rest /\
                forall a b, s = a ++ sep ++ b -> List.length head <= List.length a).

(** When the run cannot go further, only the rest of the pattern decides. *)
Definition stops (p : ascii -> bool) (t : str) : Prop :=
  match t with
  | [] => True
  | c :: _ => p c = false
  end.

(** The end of a line stops [.]: nothing is left, or a newline. *)
Definition line_end (eol : str) : Prop := eol = [] \/ eol = [Re.LF].

(** ** Notions of the further properties *)

(** The line an error is reported for. *)
Definition error_line (err : Error) : nat :=
  match err with
  | INVALID ln _ _ _ => ln
  | MISMATCH ln _ _ _ _ => ln
  end.

(** What one entry adds to [errors] and to [ok_count]. *)
Definition entry_errors (cp_to_name : Dict.dict) (entry : Entry) : list Error :=
  fst (verify_entry cp_to_name ([], 0) entry).

Definition entry_ok (cp_to_name : Dict.dict) (entry : Entry) : nat :=
  snd (verify_entry cp_to_name ([], 0) entry).

(** The lines the report prints for one error. *)
Definition error_block (name_to_cp : Dict.dict) (err : Error) : list str :=
  match err with
  | INVALID ln cp comment _ =>
      [lit "  Line " ++ Str.of_nat ln ++ lit ": INVALID CODEPOINT";
       lit "    Codepoint: 0x" ++ cp;
       lit "    Comment: " ++ comment;
       []]
  | MISMATCH ln cp claimed actual _ =>
      [lit "  Line " ++ Str.of_nat ln ++ lit ": NAME MISMATCH";
       lit "    Codepoint: 0x" ++ cp;
       lit "    Comment says: " ++ claimed;
       lit "    Actually is:  " ++ actual]
      ++ match Dict.get name_to_cp (Str.replace_char "_" "-" claimed) with
         | Some correct_cp =>
             [lit "    → '" ++ claimed ++ lit "' is at 0x" ++ correct_cp]
         | None => []
         end
      ++ [[]]
  end.

(** The line that says that nothing is wrong. *)
Definition all_match_line : str :=
  [Re.LF] ++ lit "✓ All icon names match their codepoints!".

(** The lines a run prints once both files are loaded: the preamble, then
    the line that all names match or the blocks of the errors, then a
    rule. *)
Definition report_lines (regen_script : str) (icons entries : nat)
    (result : list Error * nat) (name_to_cp : Dict.dict) : list str :=
  [lit "Loading MDI metadata from cache...";
   lit "  Found " ++ Str.of_nat icons ++ lit " icons in MDI library";
   [Re.LF] ++ lit "Parsing " ++ regen_script ++ lit "...";
   lit "  Found " ++ Str.of_nat entries ++ lit " icon entries" ++ [Re.LF];
   rule;
   lit "VERIFICATION RESULTS";
   rule;
   [Re.LF] ++ lit "✓ OK: " ++ Str.of_nat (snd result)
   ++ lit " icons verified correctly"]
  ++ match fst result with
     | [] => [all_match_line]
     | _ :: _ =>
         ([Re.LF] ++ lit "✗ ERRORS: " ++ Str.of_nat (List.length (fst result))
          ++ lit " icons have issues:" ++ [Re.LF])
         :: flat_map (error_block name_to_cp) (fst result)
     end
  ++ [rule].

(** A digit or a capital letter from A to F. *)
Definition upper_hexdigit (c : ascii) : bool :=
  Str.between 48 57 c || Str.between 65 70 c.

(** What every pair of the index satisfies. *)
Definition index_pair_ok (kv : str * str) : Prop :=
  fst kv <> [] /\ Str.upper (fst kv) = fst kv /\ snd kv <> [].

(** * Properties *)

(** ** Characters *)

#[local] Arguments Ascii.eqb : simpl never.

Ltac by_ascii_cases c :=
  destruct c as [[] [] [] [] [] [] [] []]; vm_compute; try reflexivity; try congruence.

Lemma isspace_lower_char c : Str.isspace (Str.lower_char c) = Str.isspace c.
Proof. by_ascii_cases c. Qed.

Lemma lower_char_idem c : Str.lower_char (Str.lower_char c) = Str.lower_char c.
Proof. by_ascii_cases c. Qed.

Lemma lower_char_space c : Ascii.eqb " " (Str.lower_char c) = Ascii.eqb " " c.
Proof. by_ascii_cases c. Qed.

Lemma lower_char_hyphen c : Ascii.eqb "-" (Str.lower_char c) = Ascii.eqb "-" c.
Proof. by_ascii_cases c. Qed.

Lemma lower_char_paren c : Ascii.eqb "(" (Str.lower_char c) = Ascii.eqb "(" c.
Proof. by_ascii_cases c. Qed.

Lemma hyphen_not_space : Str.isspace "-" = false.
Proof. reflexivity. Qed.

(** ** Strings *)

Lemma eqb_eq a b : Str.eqb a b = true <-> a = b.
Proof.
  revert b; induction a as [|x a IH]; intros [|y b]; simpl; split;
    try congruence; try reflexivity.
  - intros H. apply andb_true_iff in H as [Hx Hab].
    apply Ascii.eqb_eq in Hx. apply IH in Hab. congruence.
  - intros H. injection H as -> ->.
    rewrite Ascii.eqb_refl. simpl. now apply IH.
Qed.

Lemma eqb_refl a : Str.eqb a a = true.
Proof. now apply eqb_eq. Qed.

Lemma eqb_neq a b : Str.eqb a b = false <-> a <> b.
Proof.
  split.
  - intros H E. apply eqb_eq in E. congruence.
  - intros H. destruct (Str.eqb a b) eqn:E; [|reflexivity].
    apply eqb_eq in E. contradiction.
Qed.

Lemma startswith_iff s p : Str.startswith s p = true <-> exists t, s = p ++ t.
Proof.
  revert s; induction p as [|x p IH]; intros s; simpl.
  - split; [intros _; now exists s | reflexivity].
  - destruct s as [|y s].
    + split; [discriminate | intros [t Ht]; discriminate].
    + rewrite andb_true_iff, Ascii.eqb_eq, IH. split.
      * intros [-> [t ->]]. now exists t.
      * intros [t Ht]. injection Ht as -> ->. split; [reflexivity | now exists t].
Qed.

Lemma startswith_app s p r :
  Str.startswith s p = true -> Str.startswith (s ++ r) p = true.
Proof.
  rewrite !startswith_iff. intros [t ->]. exists (t ++ r). now rewrite app_assoc.
Qed.

Lemma contains_unfold s p :
  Str.contains s p =
  Str.startswith s p || match s with [] => false | _ :: s' => Str.contains s' p end.
Proof. destruct s; reflexivity. Qed.

Lemma contains_iff s p :
  Str.contains s p = true <-> exists a b, s = a ++ p ++ b.
Proof.
  induction s as [|c s IH]; rewrite contains_unfold, orb_true_iff, startswith_iff.
  - split.
    + intros [[t Ht] | H]; [|discriminate]. now exists [], t.
    + intros [a [b H]]. left. destruct a; [|discriminate]. now exists b.
  - rewrite IH. split.
    + intros [[t Ht] | [a [b H]]].
      * now exists [], t.
      * exists (c :: a), b. simpl. now rewrite H.
    + intros [[|x a] [b H]].
      * left. now exists b.
      * right. injection H as -> ->. now exists a, b.
Qed.

Lemma contains_false_iff s p :
  Str.contains s p = false <-> forall a b, s <> a ++ p ++ b.
Proof.
  split.
  - intros H a b E.
    assert (Str.contains s p = true) by (apply contains_iff; now exists a, b).
    congruence.
  - intros H. destruct (Str.contains s p) eqn:E; [|reflexivity].
    apply contains_iff in E as [a [b E]]. now apply H in E.
Qed.

(** A substring of a part is a substring of the whole. *)
Lemma contains_infix s t u p :
  Str.contains t p = true -> Str.contains (s ++ t ++ u) p = true.
Proof.
  rewrite !contains_iff. intros [a [b ->]]. exists (s ++ a), (b ++ u).
  now rewrite <- !app_assoc.
Qed.

Lemma contains_infix_false s t u p :
  Str.contains (s ++ t ++ u) p = false -> Str.contains t p = false.
Proof.
  intros H. destruct (Str.contains t p) eqn:E; [|reflexivity].
  apply contains_infix with (s := s) (u := u) in E. congruence.
Qed.

(** *** Trimming *)

Lemma lstrip_decomp s :
  exists w, s = w ++ Str.lstrip s /\ forallb Str.isspace w = true.
Proof.
  induction s as [|c s [w [Hs Hw]]]; simpl.
  - now exists [].
  - destruct (Str.isspace c) eqn:E.
    + exists (c :: w). simpl. rewrite E, Hw. split; [now rewrite <- Hs | reflexivity].
    + now exists [].
Qed.

Lemma rstrip_decomp s :
  exists w, s = Str.rstrip s ++ w /\ forallb Str.isspace w = true.
Proof.
  induction s as [|c s [w [Hs Hw]]]; simpl.
  - now exists [].
  - destruct (Str.rstrip s) as [|d r] eqn:Er.
    + destruct (Str.isspace c) eqn:E.
      * exists (c :: w). simpl in *. rewrite E, Hw. now subst s.
      * exists w. simpl in *. now subst s.
    + exists w. split; [|assumption]. simpl in *. congruence.
Qed.

Lemma strip_decomp s :
  exists w1 w2,
    s = w1 ++ Str.strip s ++ w2 /\
    forallb Str.isspace w1 = true /\ forallb Str.isspace w2 = true.
Proof.
  destruct (lstrip_decomp s) as [w1 [H1 Hw1]].
  destruct (rstrip_decomp (Str.lstrip s)) as [w2 [H2 Hw2]].
  exists w1, w2. unfold Str.strip. now rewrite <- H2, <- H1.
Qed.

Lemma lstrip_app_space w s :
  forallb Str.isspace w = true -> Str.lstrip (w ++ s) = Str.lstrip s.
Proof.
  induction w as [|c w IH]; simpl; [reflexivity|].
  intros H. apply andb_true_iff in H as [-> Hw]. now apply IH.
Qed.

Lemma rstrip_space w : forallb Str.isspace w = true -> Str.rstrip w = [].
Proof.
  induction w as [|c w IH]; simpl; [reflexivity|].
  intros H. apply andb_true_iff in H as [-> Hw]. now rewrite IH.
Qed.

Lemma rstrip_app_space s w :
  forallb Str.isspace w = true -> Str.rstrip (s ++ w) = Str.rstrip s.
Proof.
  intros Hw. induction s as [|c s IH]; simpl.
  - now apply rstrip_space.
  - now rewrite IH.
Qed.

Lemma lstrip_starts_clean s : starts_clean (Str.lstrip s).
Proof.
  induction s as [|c s IH]; simpl; [exact I|].
  destruct (Str.isspace c) eqn:E; [assumption | exact E].
Qed.

Lemma lstrip_clean s : starts_clean s -> Str.lstrip s = s.
Proof. destruct s as [|c s]; simpl; [reflexivity | now intros ->]. Qed.

Lemma rstrip_starts_clean s : starts_clean s -> starts_clean (Str.rstrip s).
Proof.
  destruct s as [|c s]; simpl; [exact id|].
  intros H. destruct (Str.rstrip s); rewrite ?H; exact H.
Qed.

Lemma rstrip_idem s : Str.rstrip (Str.rstrip s) = Str.rstrip s.
Proof.
  induction s as [|c s IH]; simpl; [reflexivity|].
  destruct (Str.rstrip s) as [|d r] eqn:Er.
  - destruct (Str.isspace c) eqn:E; simpl; [reflexivity | now rewrite E].
  - change (Str.rstrip (c :: d :: r)) with
      (match Str.rstrip (d :: r) with
       | [] => if Str.isspace c then [] else [c]
       | x :: y => c :: x :: y
       end).
    now rewrite IH.
Qed.

Lemma strip_starts_clean s : starts_clean (Str.strip s).
Proof. apply rstrip_starts_clean, lstrip_starts_clean. Qed.

Lemma strip_idem s : Str.strip (Str.strip s) = Str.strip s.
Proof.
  unfold Str.strip at 1. rewrite lstrip_clean by apply strip_starts_clean.
  unfold Str.strip. apply rstrip_idem.
Qed.

Lemma strip_app_space_l w s :
  forallb Str.isspace w = true -> Str.strip (w ++ s) = Str.strip s.
Proof. intros H. unfold Str.strip. now rewrite lstrip_app_space. Qed.

Lemma lstrip_app s w :
  Str.lstrip s <> [] -> Str.lstrip (s ++ w) = Str.lstrip s ++ w.
Proof.
  induction s as [|c s IH]; simpl; [congruence|].
  destruct (Str.isspace c); [exact IH | reflexivity].
Qed.

Lemma lstrip_nil_space s : Str.lstrip s = [] -> forallb Str.isspace s = true.
Proof.
  induction s as [|c s IH]; simpl; [reflexivity|].
  destruct (Str.isspace c); [exact IH | discriminate].
Qed.

Lemma strip_app_space_r s w :
  forallb Str.isspace w = true -> Str.strip (s ++ w) = Str.strip s.
Proof.
  intros Hw. unfold Str.strip.
  destruct (Str.lstrip s) as [|c t] eqn:E.
  - apply lstrip_nil_space in E.
    rewrite <- (app_nil_r (s ++ w)), lstrip_app_space; [reflexivity|].
    now rewrite forallb_app, E, Hw.
  - rewrite lstrip_app by congruence. rewrite E. now apply rstrip_app_space.
Qed.

(** Trimming commutes with a map on characters that keeps white space. *)
Lemma lstrip_map f s :
  (forall c, Str.isspace (f c) = Str.isspace c) ->
  Str.lstrip (map f s) = map f (Str.lstrip s).
Proof.
  intros Hf. induction s as [|c s IH]; simpl; [reflexivity|].
  rewrite Hf. destruct (Str.isspace c); [exact IH | reflexivity].
Qed.

Lemma rstrip_map f s :
  (forall c, Str.isspace (f c) = Str.isspace c) ->
  Str.rstrip (map f s) = map f (Str.rstrip s).
Proof.
  intros Hf. induction s as [|c s IH]; simpl; [reflexivity|].
  rewrite IH, Hf. destruct (Str.rstrip s); simpl; [|reflexivity].
  destruct (Str.isspace c); reflexivity.
Qed.

Lemma strip_lower s : Str.strip (Str.lower s) = Str.lower (Str.strip s).
Proof.
  unfold Str.strip, Str.lower.
  rewrite lstrip_map, rstrip_map by apply isspace_lower_char. reflexivity.
Qed.

Lemma lower_idem s : Str.lower (Str.lower s) = Str.lower s.
Proof.
  unfold Str.lower. rewrite map_map. apply map_ext_in.
  intros c _. apply lower_char_idem.
Qed.

(** *** The text before a separator *)

Lemma split_head_prefix sep s : exists r, s = Str.split_head sep s ++ r.
Proof.
  induction s as [|c s [r Hr]]; simpl.
  - now exists [].
  - destruct (Str.startswith (c :: s) sep).
    + now exists (c :: s).
    + exists r. simpl. now rewrite <- Hr.
Qed.

Lemma split_head_no_sep sep s :
  sep <> [] -> Str.contains (Str.split_head sep s) sep = false.
Proof.
  intros Hsep. induction s as [|c s IH].
  - destruct sep; [congruence | reflexivity].
  - simpl Str.split_head. destruct (Str.startswith (c :: s) sep) eqn:E.
    + destruct sep; [congruence | reflexivity].
    + rewrite contains_unfold, IH, orb_false_r.
      destruct (split_head_prefix sep s) as [r Hr].
      destruct (Str.startswith (c :: Str.split_head sep s) sep) eqn:E'; [|reflexivity].
      apply startswith_app with (r := r) in E'. simpl in E'.
      rewrite <- Hr in E'. congruence.
Qed.

Lemma split_head_id sep s :
  Str.contains s sep = false -> Str.split_head sep s = s.
Proof.
  induction s as [|c s IH]; [reflexivity|].
  rewrite contains_unfold. intros H. apply orb_false_iff in H as [H1 H2].
  simpl. rewrite H1. now rewrite IH.
Qed.

Lemma split_head_first sep s a b :
  s = a ++ sep ++ b -> List.length (Str.split_head sep s) <= List.length a.
Proof.
  revert a; induction s as [|c s IH]; intros a E; simpl; [lia|].
  destruct (Str.startswith (c :: s) sep) eqn:S; simpl; [lia|].
  destruct a as [|x a].
  - simpl in E. assert (Str.startswith (c :: s) sep = true)
      by (apply startswith_iff; eauto). congruence.
  - injection E as -> E. simpl. apply le_n_S. now apply IH.
Qed.

Lemma split_head_is_head sep s : is_head sep s (Str.split_head sep s).
Proof.
  destruct (Str.contains s sep) eqn:C.
  - right. assert (exists rest, s = Str.split_head sep s ++ sep ++ rest) as [rest E].
    { clear - C. induction s as [|c s IH].
      - rewrite contains_unfold, orb_false_r in C.
        apply startswith_iff in C as [t Ht]. exists t. exact Ht.
      - simpl. destruct (Str.startswith (c :: s) sep) eqn:S.
        + apply startswith_iff in S as [t Ht]. now exists t.
        + rewrite contains_unfold, S in C. simpl in C.
          destruct (IH C) as [rest E]. exists rest. simpl. now rewrite <- E. }
    exists rest. split; [exact E|]. intros a b. apply split_head_first.
  - left. split; [exact C | now apply split_head_id].
Qed.

(** *** Lowercasing keeps the separators where they are *)

Lemma startswith_map f s p :
  (forall x c, In x p -> Ascii.eqb x (f c) = Ascii.eqb x c) ->
  Str.startswith (map f s) p = Str.startswith s p.
Proof.
  revert s; induction p as [|x p IH]; intros s Hf; [reflexivity|].
  destruct s as [|c s]; [reflexivity|]. simpl.
  rewrite Hf by now left. rewrite IH; [reflexivity|].
  intros y d Hy. apply Hf. now right.
Qed.

Lemma contains_map f s p :
  (forall x c, In x p -> Ascii.eqb x (f c) = Ascii.eqb x c) ->
  Str.contains (map f s) p = Str.contains s p.
Proof.
  intros Hf. induction s as [|c s IH].
  - reflexivity.
  - rewrite (contains_unfold (c :: s)), <- IH, <- (startswith_map f (c :: s) p Hf).
    reflexivity.
Qed.

Lemma contains_lower_paren s :
  Str.contains (Str.lower s) (lit "(") = Str.contains s (lit "(").
Proof.
  apply contains_map. intros x c [<- | []]. apply lower_char_paren.
Qed.

Lemma contains_lower_dash s :
  Str.contains (Str.lower s) (lit " - ") = Str.contains s (lit " - ").
Proof.
  apply contains_map. intros x c [<- | [<- | [<- | []]]];
    auto using lower_char_space, lower_char_hyphen.
Qed.

Lemma contains_strip_false s p :
  Str.contains s p = false -> Str.contains (Str.strip s) p = false.
Proof.
  destruct (strip_decomp s) as [w1 [w2 [E _]]]. intros H.
  rewrite E in H. now apply contains_infix_false in H.
Qed.

Lemma contains_split_head_false sep s p :
  Str.contains s p = false -> Str.contains (Str.split_head sep s) p = false.
Proof.
  destruct (split_head_prefix sep s) as [r E]. intros H.
  rewrite E in H. now apply (contains_infix_false []) in H.
Qed.

(** ** The normalizer *)

(** What the normalizer returns has no parenthesis and no " - " in it, is
    trimmed and is in lower case. *)
Lemma normalizer_no_paren comment :
  Str.contains (extract_icon_name_from_comment comment) (lit "(") = false.
Proof.
  unfold extract_icon_name_from_comment.
  apply contains_strip_false. rewrite contains_lower_paren.
  apply contains_strip_false, contains_split_head_false, contains_strip_false.
  now apply split_head_no_sep.
Qed.

Lemma normalizer_no_dash comment :
  Str.contains (extract_icon_name_from_comment comment) (lit " - ") = false.
Proof.
  unfold extract_icon_name_from_comment.
  apply contains_strip_false. rewrite contains_lower_dash.
  apply contains_strip_false. now apply split_head_no_sep.
Qed.

Lemma normalizer_trimmed comment :
  Str.strip (extract_icon_name_from_comment comment)
  = extract_icon_name_from_comment comment.
Proof. apply strip_idem. Qed.

Lemma normalizer_lowercase comment :
  Str.lower (extract_icon_name_from_comment comment)
  = extract_icon_name_from_comment comment.
Proof.
  unfold extract_icon_name_from_comment.
  now rewrite <- strip_lower, lower_idem.
Qed.

(** The two trims in the middle of the normalizer fold into the last one
    as far as case and white space go: only the place where " - " is
    looked for depends on them. *)
Lemma normalizer_unfold comment :
  extract_icon_name_from_comment comment =
  Str.lower
    (Str.strip
       (Str.split_head (lit " - ")
          (Str.strip (Str.split_head (lit "(") comment)))).
Proof.
  unfold extract_icon_name_from_comment.
  now rewrite strip_lower, strip_idem.
Qed.

(** A string without parenthesis and without " - ", already trimmed and
    in lower case, is left as it is. *)
Lemma normalizer_fixpoint name :
  Str.contains name (lit "(") = false ->
  Str.contains name (lit " - ") = false ->
  Str.strip name = name ->
  Str.lower name = name ->
  extract_icon_name_from_comment name = name.
Proof.
  intros Hp Hd Hs Hl. unfold extract_icon_name_from_comment.
  rewrite (split_head_id _ _ Hp), Hs, (split_head_id _ _ Hd), Hs, Hl.
  exact Hs.
Qed.

(** Where the trimmed text before the parenthesis neither begins nor ends
    with a hyphen, trimming it first does not move the first " - ". *)
Lemma split_head_dash_space_l w t :
  forallb Str.isspace w = true ->
  hd "x" t <> "-" ->
  Str.split_head (lit " - ") (w ++ t) = w ++ Str.split_head (lit " - ") t.
Proof.
  intros Hw Ht. induction w as [|c w IH]; [reflexivity|].
  simpl in Hw. apply andb_true_iff in Hw as [Hc Hw].
  change (Str.split_head (lit " - ") ((c :: w) ++ t)) with
    (if Str.startswith (c :: w ++ t) (lit " - ") then []
     else c :: Str.split_head (lit " - ") (w ++ t)).
  assert (Str.startswith (c :: w ++ t) (lit " - ") = false) as ->.
  { simpl. destruct (w ++ t) as [|x r] eqn:E; [now rewrite andb_false_r|].
    assert (x <> "-") as Hx.
    { destruct w as [|y w'].
      - simpl in E. subst t. exact Ht.
      - simpl in E, Hw. injection E as -> _.
        apply andb_true_iff in Hw as [Hy _]. intros ->. discriminate. }
    apply Ascii.eqb_neq in Hx. rewrite Ascii.eqb_sym in Hx.
    now rewrite Hx, andb_false_r. }
  now rewrite IH.
Qed.

Lemma space_no_dash w :
  forallb Str.isspace w = true -> Str.contains w (lit " - ") = false.
Proof.
  intros Hw. apply contains_false_iff. intros a b E.
  rewrite E, !forallb_app in Hw. simpl in Hw.
  rewrite andb_false_r in Hw. discriminate.
Qed.

Lemma split_head_dash_space_r core w :
  forallb Str.isspace w = true ->
  last core "x" <> "-" ->
  Str.split_head (lit " - ") (core ++ w) =
  Str.split_head (lit " - ") core
  ++ (if Str.contains core (lit " - ") then [] else w).
Proof.
  intros Hw. induction core as [|c core IH]; intros Hl.
  - simpl app. now rewrite split_head_id by now apply space_no_dash.
  - assert (Str.startswith (c :: core ++ w) (lit " - ")
            = Str.startswith (c :: core) (lit " - ")) as Hsw.
    { destruct core as [|x [|y core]]; simpl.
      - destruct w as [|z w]; [reflexivity|]. simpl in Hw.
        apply andb_true_iff in Hw as [Hz _].
        destruct (Ascii.eqb "-" z) eqn:E; [|reflexivity].
        apply Ascii.eqb_eq in E. subst z. discriminate.
      - simpl in Hl. apply Ascii.eqb_neq in Hl. rewrite Ascii.eqb_sym in Hl.
        rewrite Hl. simpl. now rewrite andb_false_r.
      - reflexivity. }
    rewrite (contains_unfold (c :: core)).
    change (Str.split_head (lit " - ") ((c :: core) ++ w)) with
      (if Str.startswith (c :: core ++ w) (lit " - ") then []
       else c :: Str.split_head (lit " - ") (core ++ w)).
    change (Str.split_head (lit " - ") (c :: core)) with
      (if Str.startswith (c :: core) (lit " - ") then []
       else c :: Str.split_head (lit " - ") core).
    rewrite Hsw. destruct (Str.startswith (c :: core) (lit " - ")); [reflexivity|].
    rewrite IH; [reflexivity|].
    destruct core; [discriminate | exact Hl].
Qed.

Lemma normalizer_agrees comment :
  let core := Str.strip (Str.split_head (lit "(") comment) in
  hd "x" core <> "-" -> last core "x" <> "-" ->
  extract_icon_name_from_comment comment = normalizer_as_specified comment.
Proof.
  intros core Hh Hl. rewrite normalizer_unfold. unfold normalizer_as_specified.
  fold core. rewrite strip_lower. f_equal.
  destruct (strip_decomp (Str.split_head (lit "(") comment)) as [w1 [w2 [E [H1 H2]]]].
  fold core in E. rewrite E.
  rewrite split_head_dash_space_l; [|assumption|].
  - rewrite split_head_dash_space_r by assumption.
    rewrite strip_app_space_l by assumption.
    destruct (Str.contains core (lit " - ")) eqn:C.
    + now rewrite app_nil_r.
    + now rewrite strip_app_space_r.
  - destruct core as [|c core']; [|exact Hh].
    simpl. destruct w2 as [|z w2]; [discriminate|].
    simpl in *. apply andb_true_iff in H2 as [Hz _]. intros ->. discriminate.
Qed.

(** ** Dictionaries *)

Lemma get_set_same d k v : Dict.get (Dict.set d k v) k = Some v.
Proof.
  induction d as [|[k' v'] d IH]; simpl.
  - now rewrite eqb_refl.
  - destruct (Str.eqb k' k) eqn:E; simpl; rewrite E; [reflexivity | exact IH].
Qed.

Lemma get_set_other d k v k' :
  k <> k' -> Dict.get (Dict.set d k v) k' = Dict.get d k'.
Proof.
  intros Hk. apply eqb_neq in Hk.
  induction d as [|[k0 v0] d IH]; simpl.
  - now rewrite Hk.
  - destruct (Str.eqb k0 k) eqn:E; simpl.
    + apply eqb_eq in E. subst k0. now rewrite Hk.
    + now rewrite IH.
Qed.

Lemma keys_set d k v :
  Dict.keys (Dict.set d k v) =
  if Dict.mem d k then Dict.keys d else Dict.keys d ++ [k].
Proof.
  unfold Dict.mem. induction d as [|[k' v'] d IH]; simpl; [reflexivity|].
  destruct (Str.eqb k' k) eqn:E; unfold Dict.keys in *; simpl; [reflexivity|].
  rewrite IH. now destruct (Dict.get d k).
Qed.

Lemma get_in_keys d k : Dict.get d k <> None <-> In k (Dict.keys d).
Proof.
  induction d as [|[k' v'] d IH]; simpl.
  - split; [congruence | intros []].
  - destruct (Str.eqb k' k) eqn:E.
    + apply eqb_eq in E. split; [now left | congruence].
    + apply eqb_neq in E. rewrite IH. split; [now right | now intros [H|H]].
Qed.


(** ** The lookup builder *)

Lemma truthy_upper s : truthy (Str.upper s) = truthy s.
Proof. now destruct s. Qed.

Lemma lookup_step_retained d icon :
  retained icon = true ->
  lookup_step d icon = Dict.set d (key_of icon) (get_or_empty (icon_name icon)).
Proof.
  unfold lookup_step, retained, key_of. rewrite truthy_upper. now intros ->.
Qed.

Lemma lookup_step_skipped d icon : retained icon = false -> lookup_step d icon = d.
Proof.
  unfold lookup_step, retained. rewrite truthy_upper. now intros ->.
Qed.

Lemma missing_field_skipped icon :
  icon_codepoint icon = None \/ icon_name icon = None -> retained icon = false.
Proof.
  unfold retained. intros [-> | ->]; simpl; [reflexivity | apply andb_false_r].
Qed.

(** Records stored under other keys leave the value of a key alone. *)
Lemma lookup_fold_other l d k :
  (forall j, In j l -> retained j = true -> key_of j <> k) ->
  Dict.get (fold_left lookup_step l d) k = Dict.get d k.
Proof.
  revert d; induction l as [|i l IH]; intros d H; simpl; [reflexivity|].
  rewrite IH by (intros j Hj; apply H; now right).
  destruct (retained i) eqn:R.
  - rewrite lookup_step_retained by assumption.
    apply get_set_other. apply H; [now left | assumption].
  - now rewrite lookup_step_skipped.
Qed.

Lemma lookup_fold_keys l d k :
  In k (Dict.keys (fold_left lookup_step l d)) <->
  In k (Dict.keys d) \/ exists i, In i l /\ retained i = true /\ key_of i = k.
Proof.
  revert d; induction l as [|i l IH]; intros d; simpl.
  - split; [now left | intros [H | [i [[] _]]]; exact H].
  - rewrite IH. destruct (retained i) eqn:R.
    + rewrite lookup_step_retained, keys_set by assumption. split.
      * intros [H | [j [Hj [Rj Kj]]]].
        -- destruct (Dict.mem d (key_of i)); [now left|].
           apply in_app_or in H as [H | [H | []]]; [now left|].
           right. exists i. auto.
        -- right. exists j. auto.
      * intros [H | [j [[<- | Hj] [Rj Kj]]]].
        -- left. destruct (Dict.mem d (key_of i)); [exact H|].
           apply in_or_app. now left.
        -- left. subst k. unfold Dict.mem.
           destruct (Dict.get d (key_of i)) eqn:G.
           ++ apply get_in_keys. congruence.
           ++ apply in_or_app. right. now left.
        -- right. exists j. auto.
    + rewrite lookup_step_skipped by assumption. split.
      * intros [H | [j [Hj [Rj Kj]]]]; [now left|]. right. exists j. auto.
      * intros [H | [j [[<- | Hj] [Rj Kj]]]]; [now left | congruence |].
        right. exists j. auto.
Qed.

(** The last element of a list that satisfies a test. *)
Lemma last_such (A : Type) (P : A -> bool) (l : list A) :
  existsb P l = true ->
  exists l1 x l2,
    l = l1 ++ x :: l2 /\ P x = true /\ forall y, In y l2 -> P y = false.
Proof.
  induction l as [|a l IH]; simpl; [discriminate|].
  destruct (existsb P l) eqn:E.
  - intros _. destruct (IH eq_refl) as [l1 [x [l2 [-> [Hx H2]]]]].
    now exists (a :: l1), x, l2.
  - rewrite orb_false_r. intros Ha. exists [], a, l. repeat split; [assumption|].
    intros y Hy. destruct (P y) eqn:Py; [|reflexivity].
    assert (existsb P l = true) by (apply existsb_exists; eauto). congruence.
Qed.

Lemma lookup_last_wins l1 icon l2 :
  retained icon = true ->
  (forall j, In j l2 -> retained j = true -> key_of j <> key_of icon) ->
  Dict.get (build_codepoint_lookup (l1 ++ icon :: l2)) (key_of icon)
  = Some (get_or_empty (icon_name icon)).
Proof.
  intros R H. unfold build_codepoint_lookup. rewrite fold_left_app. simpl.
  rewrite lookup_fold_other by assumption.
  rewrite lookup_step_retained by assumption. apply get_set_same.
Qed.

Lemma lookup_skips l1 icon l2 :
  retained icon = false ->
  build_codepoint_lookup (l1 ++ icon :: l2) = build_codepoint_lookup (l1 ++ l2).
Proof.
  intros R. unfold build_codepoint_lookup. rewrite !fold_left_app. simpl.
  now rewrite lookup_step_skipped.
Qed.

Lemma lookup_present mdi_data k :
  In k (Dict.keys (build_codepoint_lookup mdi_data)) ->
  exists l1 icon l2,
    mdi_data = l1 ++ icon :: l2 /\ retained icon = true /\ key_of icon = k /\
    (forall j, In j l2 -> retained j = true -> key_of j <> k) /\
    Dict.get (build_codepoint_lookup mdi_data) k
    = Some (get_or_empty (icon_name icon)).
Proof.
  intros H. apply lookup_fold_keys in H as [[] | [i [Hi [Ri Ki]]]].
  destruct (@last_such _ (fun j => retained j && Str.eqb (key_of j) k) mdi_data)
    as [l1 [icon [l2 [E [Hx H2]]]]].
  { apply existsb_exists. exists i. split; [assumption|].
    rewrite Ri. simpl. now apply eqb_eq. }
  apply andb_true_iff in Hx as [Rx Kx]. apply eqb_eq in Kx.
  assert (forall j, In j l2 -> retained j = true -> key_of j <> k) as Hlater.
  { intros j Hj Rj Kj. specialize (H2 j Hj). rewrite Rj in H2. simpl in H2.
    apply eqb_neq in H2. contradiction. }
  exists l1, icon, l2. repeat split; try assumption.
  subst mdi_data. rewrite <- Ki, <- Kx in *. now apply lookup_last_wins.
Qed.

(** ** The verifier *)

Lemma verify_entry_absent cp_to_name errors ok_count entry :
  Dict.get cp_to_name (codepoint entry) = None ->
  verify_entry cp_to_name (errors, ok_count) entry =
  (errors ++ [INVALID (line entry) (codepoint entry) (comment entry)
                (lit "Codepoint " ++ codepoint entry ++ lit " does not exist in MDI!")],
   ok_count).
Proof. unfold verify_entry. now intros ->. Qed.

Lemma verify_entry_present cp_to_name errors ok_count entry actual :
  Dict.get cp_to_name (codepoint entry) = Some actual ->
  verify_entry cp_to_name (errors, ok_count) entry =
  let claimed := claimed_normalized_of (comment entry) in
  if Str.eqb claimed actual then (errors, S ok_count)
  else if Str.startswith actual claimed || Str.contains actual claimed
       then (errors, S ok_count)
       else (errors ++ [MISMATCH (line entry) (codepoint entry)
                          (extract_icon_name_from_comment (comment entry))
                          actual (comment entry)],
             ok_count).
Proof. unfold verify_entry, claimed_normalized_of. now intros ->. Qed.

(** Each entry is counted once: either as verified or as one error. *)
Lemma verify_entry_counts cp_to_name errors ok_count entry :
  let (errors', ok_count') := verify_entry cp_to_name (errors, ok_count) entry in
  ok_count' + List.length errors' = S (ok_count + List.length errors).
Proof.
  unfold verify_entry.
  destruct (Dict.get cp_to_name (codepoint entry)) as [actual|].
  - repeat match goal with |- context [if ?b then _ else _] => destruct b end;
      rewrite ?length_app; simpl; lia.
  - rewrite length_app. simpl. lia.
Qed.

Lemma verify_fold_counts cp_to_name entries errors ok_count :
  let (errors', ok_count') :=
    fold_left (verify_entry cp_to_name) entries (errors, ok_count) in
  ok_count' + List.length errors'
  = List.length entries + (ok_count + List.length errors).
Proof.
  revert errors ok_count.
  induction entries as [|e entries IH]; intros; cbn [fold_left List.length].
  - reflexivity.
  - pose proof (verify_entry_counts cp_to_name errors ok_count e) as H.
    destruct (verify_entry cp_to_name (errors, ok_count) e) as [errors1 ok1].
    specialize (IH errors1 ok1).
    destruct (fold_left (verify_entry cp_to_name) entries (errors1, ok1)).
    lia.
Qed.

(** The normalizer gives the empty name to a comment that starts, after
    white space, with a parenthesis. *)
Lemma normalizer_parenthesized w rest :
  forallb Str.isspace w = true ->
  extract_icon_name_from_comment (w ++ lit "(" ++ rest) = [].
Proof.
  intros Hw. unfold extract_icon_name_from_comment.
  assert (Str.split_head (lit "(") (w ++ lit "(" ++ rest) = w) as ->.
  { induction w as [|c w IH]; [reflexivity|].
    simpl in Hw. apply andb_true_iff in Hw as [Hc Hw].
    change (Str.split_head (lit "(") ((c :: w) ++ lit "(" ++ rest)) with
      (if Str.startswith (c :: w ++ lit "(" ++ rest) (lit "(") then []
       else c :: Str.split_head (lit "(") (w ++ lit "(" ++ rest)).
    rewrite IH by assumption.
    assert (Str.startswith (c :: w ++ lit "(" ++ rest) (lit "(") = false) as ->;
      [|reflexivity].
    simpl. rewrite andb_true_r. apply Ascii.eqb_neq. intros <-. discriminate. }
  rewrite <- (app_nil_r w), strip_app_space_l by assumption. reflexivity.
Qed.

Lemma startswith_nil s : Str.startswith s [] = true.
Proof. reflexivity. Qed.

(** ** The run *)

Lemma report_error_returns name_to_cp err out :
  exists out', report_error name_to_cp err out = (Returned tt, out').
Proof.
  destruct err; unfold report_error, bind, print, ret; simpl.
  - eauto.
  - destruct (Dict.get name_to_cp (Str.replace_char "_" "-" claimed)); eauto.
Qed.

Lemma for_each_report_returns name_to_cp errors out :
  exists out', for_each errors (report_error name_to_cp) out = (Returned tt, out').
Proof.
  revert out. induction errors as [|e errors IH]; intros out; simpl.
  - unfold ret. eauto.
  - unfold bind at 1.
    destruct (report_error_returns name_to_cp e out) as [out1 ->]. apply IH.
Qed.

Section Run.

Variables regen_script MDI_CACHE_FILE : str.
Variable json_gz_load : str -> str + list IconRecord.
Variable fs : FileSystem.

Local Abbreviation run := (script regen_script MDI_CACHE_FILE json_gz_load fs).

Lemma run_no_declarations :
  fs regen_script = None ->
  run = ([lit "ERROR: Cannot find " ++ regen_script], 1).
Proof. unfold script, main. now intros ->. Qed.

Lemma run_no_cache contents :
  fs regen_script = Some contents ->
  fs MDI_CACHE_FILE = None ->
  run = ([lit "ERROR: MDI metadata cache not found at " ++ MDI_CACHE_FILE;
          lit "   Run: make update-mdi-cache"], 2).
Proof.
  unfold script, main, fetch_mdi_metadata. now intros -> ->.
Qed.

Lemma run_bad_cache contents bytes e :
  fs regen_script = Some contents ->
  fs MDI_CACHE_FILE = Some bytes ->
  json_gz_load bytes = inl e ->
  run = ([lit "Loading MDI metadata from cache...";
          lit "ERROR: Failed to load MDI metadata: " ++ e], 2).
Proof.
  unfold script, main, fetch_mdi_metadata. intros -> -> H.
  unfold bind, print. simpl. now rewrite H.
Qed.

Lemma run_verified contents bytes data :
  fs regen_script = Some contents ->
  fs MDI_CACHE_FILE = Some bytes ->
  json_gz_load bytes = inr data ->
  snd run =
  match fst (verify (build_codepoint_lookup data) (parse_regen_script contents)) with
  | [] => 0
  | _ :: _ => 1
  end.
Proof.
  unfold script, main, fetch_mdi_metadata. intros -> -> H.
  unfold bind at 1 2 3 4. unfold print at 1. cbn iota beta. rewrite H.
  unfold bind at 1. unfold print at 1, ret at 1. cbn iota beta.
  destruct (verify (build_codepoint_lookup data) (parse_regen_script contents))
    as [errors ok_count].
  unfold bind, print, ret, sys_exit. cbn iota beta.
  destruct errors as [|e errors]; [reflexivity|].
  match goal with
  | |- context [for_each ?l ?f ?o] =>
      destruct (for_each_report_returns (invert (build_codepoint_lookup data)) l o) as [out' ->]
  end.
  reflexivity.
Qed.

End Run.

(** ** The matcher *)

(** *** Greedy repetition *)

Lemma star_sound (A : Type) p s (k : str -> option A) x :
  Re.star p s k = Some x ->
  exists u t, s = u ++ t /\ forallb p u = true /\ k t = Some x.
Proof.
  induction s as [|c s IH]; simpl.
  - intros H. now exists [], [].
  - destruct (p c) eqn:Pc.
    + destruct (Re.star p s k) as [y|] eqn:E.
      * intros [= ->]. destruct (IH eq_refl) as [u [t [-> [Hu Hk]]]].
        exists (c :: u), t. simpl. now rewrite Pc, Hu.
      * intros H. now exists [], (c :: s).
    + intros H. now exists [], (c :: s).
Qed.

Lemma star_none (A : Type) p s (k : str -> option A) :
  (forall u t, s = u ++ t -> forallb p u = true -> k t = None) ->
  Re.star p s k = None.
Proof.
  intros H. destruct (Re.star p s k) as [x|] eqn:E; [|reflexivity].
  apply star_sound in E as [u [t [Hs [Hu Hk]]]].
  rewrite (H u t Hs Hu) in Hk. discriminate.
Qed.

Lemma star_complete (A : Type) p u t (k : str -> option A) :
  forallb p u = true -> k t <> None -> Re.star p (u ++ t) k <> None.
Proof.
  intros Hu Hk. induction u as [|c u IH]; simpl.
  - destruct t as [|d t]; simpl; [assumption|].
    destruct (p d); [|assumption]. now destruct (Re.star p t k).
  - simpl in Hu. apply andb_true_iff in Hu as [-> Hu].
    specialize (IH Hu). now destruct (Re.star p (u ++ t) k).
Qed.

(** The repetition is greedy: it stops at the longest run after which the
    rest of the pattern matches. *)
Lemma star_greedy (A : Type) p u t (k : str -> option A) x :
  forallb p u = true ->
  k t = Some x ->
  (forall u' t', u ++ t = u' ++ t' -> forallb p u' = true ->
                 List.length u < List.length u' -> k t' = None) ->
  Re.star p (u ++ t) k = Some x.
Proof.
  intros Hu Hk. induction u as [|c u IH]; intros Hlong.
  - simpl app. destruct t as [|d t]; simpl; [assumption|].
    destruct (p d) eqn:Pd; [|assumption].
    rewrite star_none; [assumption|].
    intros u1 t1 E H1. apply (Hlong (d :: u1) t1).
    + simpl. now rewrite E.
    + simpl. now rewrite Pd.
    + simpl. lia.
  - simpl in Hu. apply andb_true_iff in Hu as [Pc Hu]. simpl. rewrite Pc.
    rewrite IH; [reflexivity | assumption |].
    intros u1 t1 E H1 Hlen. apply (Hlong (c :: u1) t1).
    + simpl. now rewrite E.
    + simpl. now rewrite Pc.
    + simpl. lia.
Qed.

Lemma star_stops (A : Type) p u t (k : str -> option A) x :
  forallb p u = true -> stops p t -> k t = Some x ->
  Re.star p (u ++ t) k = Some x.
Proof.
  intros Hu Ht Hk. induction u as [|c u IH]; simpl.
  - destruct t as [|d t]; simpl in *; [assumption | now rewrite Ht].
  - simpl in Hu. apply andb_true_iff in Hu as [-> Hu]. now rewrite IH.
Qed.

(** *** The matcher finds matches, and finds one whenever there is one *)

Lemma firstn_consumed (s1 s2 : str) :
  firstn (List.length (s1 ++ s2) - List.length s2) (s1 ++ s2) = s1.
Proof.
  rewrite length_app. replace (List.length s1 + List.length s2 - List.length s2)
    with (List.length s1 + 0) by lia.
  rewrite firstn_app_2. simpl. apply app_nil_r.
Qed.

Lemma bt_sound (A : Type) r : forall s g (k : str -> list str -> option A) x,
  Re.bt r s g k = Some x ->
  exists s1 s2 g', s = s1 ++ s2 /\ Re.matches r s1 g g' /\ k s2 g' = Some x.
Proof.
  induction r as [|p|r1 IH1 r2 IH2|r1 IH1|p|r1 IH1]; intros s g k x; simpl.
  - intros H. exists [], s, g. repeat split; [constructor | assumption].
  - destruct s as [|c s]; [discriminate|]. destruct (p c) eqn:Pc; [|discriminate].
    intros H. exists [c], s, g. repeat split; [now constructor | assumption].
  - intros H. apply IH1 in H as [s1 [s2 [g1 [-> [M1 H]]]]].
    apply IH2 in H as [s3 [s4 [g2 [-> [M2 H]]]]].
    exists (s1 ++ s3), s4, g2. rewrite <- app_assoc.
    repeat split; [econstructor; eassumption | assumption].
  - destruct (Re.bt r1 s g k) as [y|] eqn:E.
    + intros [= ->]. apply IH1 in E as [s1 [s2 [g1 [-> [M1 H]]]]].
      exists s1, s2, g1. repeat split; [now constructor | assumption].
    + intros H. exists [], s, g. repeat split; [apply Re.m_opt_none | assumption].
  - intros H. apply star_sound in H as [u [t [-> [Hu H]]]].
    exists u, t, g. repeat split; [now constructor | assumption].
  - intros H. apply IH1 in H as [s1 [s2 [g1 [-> [M1 H]]]]].
    rewrite firstn_consumed in H.
    exists s1, s2, (g1 ++ [s1]). repeat split; [now constructor | assumption].
Qed.

Lemma bt_complete (A : Type) r s1 g g' :
  Re.matches r s1 g g' ->
  forall s2 (k : str -> list str -> option A),
    k s2 g' <> None -> Re.bt r (s1 ++ s2) g k <> None.
Proof.
  induction 1 as [g|p c g Pc|r1 r2 s1 s2 g g1 g2 M1 IH1 M2 IH2
                  |r s g g' M IH|r g|p s g Hs|r s g g' M IH];
    intros s3 k Hk; simpl.
  - assumption.
  - now rewrite Pc.
  - rewrite <- app_assoc. apply IH1. now apply IH2.
  - specialize (IH s3 k Hk). now destruct (Re.bt r (s ++ s3) g k).
  - now destruct (Re.bt r s3 g k).
  - now apply star_complete.
  - apply IH. now rewrite firstn_consumed.
Qed.

Lemma search_unfold r s :
  Re.search r s =
  match Re.bt r s [] Re.found with
  | Some m => Some m
  | None => match s with [] => None | _ :: s' => Re.search r s' end
  end.
Proof. destruct s; reflexivity. Qed.

Lemma search_sound r s m :
  Re.search r s = Some m ->
  exists a s1 b, s = a ++ s1 ++ b /\ Re.matches r s1 [] m.
Proof.
  induction s as [|c s IH]; rewrite search_unfold;
    destruct (Re.bt _ _ [] Re.found) as [y|] eqn:E; try discriminate.
  - intros [= ->]. apply bt_sound in E as [s1 [s2 [g' [Hs [M [= ->]]]]]].
    now exists [], s1, s2.
  - intros [= ->]. apply bt_sound in E as [s1 [s2 [g' [Hs [M [= ->]]]]]].
    now exists [], s1, s2.
  - intros H. destruct (IH H) as [a [s1 [b [-> M]]]]. now exists (c :: a), s1, b.
Qed.

Lemma search_complete r a s1 b m :
  Re.matches r s1 [] m -> Re.search r (a ++ s1 ++ b) <> None.
Proof.
  intros M. induction a as [|c a IH]; rewrite search_unfold.
  - simpl app. pose proof (@bt_complete _ r s1 [] m M b Re.found) as H.
    destruct (Re.bt r (s1 ++ b) [] Re.found); [discriminate|].
    exfalso. apply H; [discriminate | reflexivity].
  - simpl app. now destruct (Re.bt r (c :: a ++ s1 ++ b) [] Re.found).
Qed.

(** *** Reading a match off the pattern *)

Lemma matches_cat_inv r1 r2 s g g' :
  Re.matches (Re.Cat r1 r2) s g g' ->
  exists s1 s2 g1,
    s = s1 ++ s2 /\ Re.matches r1 s1 g g1 /\ Re.matches r2 s2 g1 g'.
Proof. inversion 1; subst. eauto 7. Qed.

Lemma matches_chr_inv p s g g' :
  Re.matches (Re.Chr p) s g g' -> exists c, s = [c] /\ p c = true /\ g' = g.
Proof. inversion 1; subst. eauto. Qed.

Lemma matches_eps_inv s g g' : Re.matches Re.Eps s g g' -> s = [] /\ g' = g.
Proof. inversion 1; subst. auto. Qed.

Lemma matches_opt_chr_inv p s g g' :
  Re.matches (Re.Opt (Re.Chr p)) s g g' ->
  g' = g /\ (s = [] \/ exists c, s = [c] /\ p c = true).
Proof.
  inversion 1; subst.
  - match goal with H : Re.matches (Re.Chr _) _ _ _ |- _ =>
      apply matches_chr_inv in H as [c [-> [Pc ->]]] end.
    eauto.
  - auto.
Qed.

Lemma matches_star_inv p s g g' :
  Re.matches (Re.Star p) s g g' -> forallb p s = true /\ g' = g.
Proof. inversion 1; subst. auto. Qed.

Lemma matches_group_inv r s g g' :
  Re.matches (Re.Group r) s g g' -> exists g1, Re.matches r s g g1 /\ g' = g1 ++ [s].
Proof. inversion 1; subst. eauto. Qed.

Lemma matches_lit_inv l s g g' :
  Re.matches (Re.Lit l) s g g' -> s = l /\ g' = g.
Proof.
  revert s g. induction l as [|c l IH]; intros s g; simpl.
  - apply matches_eps_inv.
  - intros H. apply matches_cat_inv in H as [a [b [g1 [-> [H1 H2]]]]].
    apply matches_chr_inv in H1 as [d [-> [Hd ->]]].
    apply Ascii.eqb_eq in Hd. subst d.
    apply IH in H2 as [-> ->]. auto.
Qed.

Lemma matches_lit l g : Re.matches (Re.Lit l) l g g.
Proof.
  induction l as [|c l IH]; simpl; [constructor|].
  change (c :: l) with ([c] ++ l). econstructor; [|exact IH].
  constructor. apply Ascii.eqb_refl.
Qed.

Lemma matches_plus_inv p s g g' :
  Re.matches (Re.Plus p) s g g' -> s <> [] /\ forallb p s = true /\ g' = g.
Proof.
  unfold Re.Plus. intros H.
  apply matches_cat_inv in H as [a [b [g1 [-> [H1 H2]]]]].
  apply matches_chr_inv in H1 as [c [-> [Pc ->]]].
  apply matches_star_inv in H2 as [Hs ->].
  simpl. rewrite Pc, Hs. repeat split. discriminate.
Qed.

Lemma matches_plus p s g :
  s <> [] -> forallb p s = true -> Re.matches (Re.Plus p) s g g.
Proof.
  destruct s as [|c s]; [congruence|]. simpl. intros _ H.
  apply andb_true_iff in H as [Pc Hs]. unfold Re.Plus.
  change (c :: s) with ([c] ++ s). econstructor; now constructor.
Qed.

(** What the part of the pattern before [.*] matches. *)
Lemma head_matches_inv s g g' :
  Re.matches head_pattern s g g' ->
  g' = g /\ exists plus,
    s = lit "MDI_ICONS" ++ plus ++ lit "=" /\ (plus = [] \/ plus = lit "+").
Proof.
  unfold head_pattern. intros H.
  apply matches_cat_inv in H as [a [b [g1 [-> [H1 H]]]]].
  apply matches_lit_inv in H1 as [-> ->].
  apply matches_cat_inv in H as [plus [e [g1 [-> [H1 H]]]]].
  apply matches_opt_chr_inv in H1 as [-> Hplus].
  apply matches_chr_inv in H as [c [-> [Hc ->]]].
  apply Ascii.eqb_eq in Hc. subst c.
  split; [reflexivity|]. exists plus. split; [reflexivity|].
  destruct Hplus as [-> | [c [-> Hc]]]; [now left | right].
  apply Ascii.eqb_eq in Hc. now subst c.
Qed.

(** What the part of the pattern after [.*] matches, and the groups. *)
Lemma site_matches_inv s g g' :
  Re.matches site_pattern s g g' ->
  exists before hex q ws1 ws2 text,
    s = before ++ lit "0x" ++ hex ++ q ++ ws1 ++ lit "#" ++ ws2 ++ text /\
    forallb Re.dot before = true /\
    hex <> [] /\ forallb Re.hexdigit hex = true /\
    (q = [] \/ q = [Re.dquote]) /\
    forallb Re.space ws1 = true /\ forallb Re.space ws2 = true /\
    text <> [] /\ forallb Re.dot text = true /\
    g' = g ++ [lit "0x" ++ hex] ++ [text].
Proof.
  unfold site_pattern. intros H.
  apply matches_cat_inv in H as [q1 [s2 [g1 [-> [H1 H]]]]].
  apply matches_opt_chr_inv in H1 as [-> Hq1].
  apply matches_cat_inv in H as [c1 [s2' [g1 [-> [H1 H]]]]].
  apply matches_opt_chr_inv in H1 as [-> Hc1].
  apply matches_cat_inv in H as [grp1 [s3 [g1 [-> [H1 H]]]]].
  apply matches_group_inv in H1 as [g0 [H1 ->]].
  apply matches_cat_inv in H1 as [zx [hex [g1 [-> [H0 H1]]]]].
  apply matches_lit_inv in H0 as [-> ->].
  apply matches_plus_inv in H1 as [Hne [Hhex ->]].
  apply matches_cat_inv in H as [q [s4 [g1 [-> [H1 H]]]]].
  apply matches_opt_chr_inv in H1 as [-> Hq].
  apply matches_cat_inv in H as [ws1 [s5 [g1 [-> [H1 H]]]]].
  apply matches_star_inv in H1 as [Hws1 ->].
  apply matches_cat_inv in H as [hash [s6 [g1 [-> [H1 H]]]]].
  apply matches_chr_inv in H1 as [c [-> [Hc ->]]].
  apply Ascii.eqb_eq in Hc. subst c.
  apply matches_cat_inv in H as [ws2 [s7 [g1 [-> [H1 H]]]]].
  apply matches_star_inv in H1 as [Hws2 ->].
  apply matches_group_inv in H as [g1 [H ->]].
  apply matches_plus_inv in H as [Hne2 [Htext ->]].
  exists (q1 ++ c1), hex, q, ws1, ws2, s7.
  repeat split; try assumption.
  - now rewrite <- !app_assoc.
  - rewrite forallb_app. apply andb_true_iff. split.
    + destruct Hq1 as [-> | [c [-> Hc]]]; [reflexivity|].
      apply Ascii.eqb_eq in Hc. now subst c.
    + destruct Hc1 as [-> | [c [-> Hc]]]; [reflexivity|].
      apply Ascii.eqb_eq in Hc. now subst c.
  - destruct Hq as [-> | [c [-> Hc]]]; [now left | right].
    apply Ascii.eqb_eq in Hc. now subst c.
  - now rewrite <- app_assoc.
Qed.

Lemma pattern_matches_inv s g g' :
  Re.matches pattern s g g' ->
  exists plus mid hex q ws1 ws2 text,
    s = lit "MDI_ICONS" ++ plus ++ lit "=" ++ mid ++ lit "0x" ++ hex
        ++ q ++ ws1 ++ lit "#" ++ ws2 ++ text /\
    (plus = [] \/ plus = lit "+") /\
    forallb Re.dot mid = true /\
    hex <> [] /\ forallb Re.hexdigit hex = true /\
    (q = [] \/ q = [Re.dquote]) /\
    forallb Re.space ws1 = true /\ forallb Re.space ws2 = true /\
    text <> [] /\ forallb Re.dot text = true /\
    g' = g ++ [lit "0x" ++ hex] ++ [text].
Proof.
  intros H.
  assert (exists s1 s2 s3 g1,
             s = s1 ++ s2 ++ s3 /\ Re.matches head_pattern s1 g g1 /\
             forallb Re.dot s2 = true /\ Re.matches site_pattern s3 g1 g')
    as [s1 [s2 [s3 [g1 [-> [Hh [Hd Hs]]]]]]].
  { unfold pattern in H.
    apply matches_cat_inv in H as [a [s2 [g1 [-> [H1 H]]]]].
    apply matches_cat_inv in H as [b [s3 [g2 [-> [H2 H]]]]].
    apply matches_cat_inv in H as [c [s4 [g3 [-> [H3 H]]]]].
    apply matches_cat_inv in H as [d [s5 [g4 [-> [H4 H]]]]].
    apply matches_star_inv in H4 as [Hd ->].
    exists (a ++ b ++ c), d, s5, g3. rewrite <- !app_assoc.
    repeat split; try assumption.
    unfold head_pattern. repeat (econstructor; try eassumption). }
  apply head_matches_inv in Hh as [-> [plus [-> Hplus]]].
  apply site_matches_inv in Hs
    as (before & hex & q & ws1 & ws2 & text
        & -> & Hb & Hne & Hhex & Hq & H1 & H2 & Ht & Htd & ->).
  exists plus, (s2 ++ before), hex, q, ws1, ws2, text.
  repeat split; try assumption.
  - now rewrite <- !app_assoc.
  - now rewrite forallb_app, Hd, Hb.
Qed.

Lemma matches_opt_none_chr p g : Re.matches (Re.Opt (Re.Chr p)) [] g g.
Proof. apply Re.m_opt_none. Qed.

Lemma matches_opt_plus plus g :
  plus = [] \/ plus = lit "+" ->
  Re.matches (Re.Opt (Re.Chr (Ascii.eqb "+"))) plus g g.
Proof.
  intros [-> | ->]; [apply Re.m_opt_none | apply Re.m_opt_some].
  now constructor.
Qed.

Lemma matches_opt_quote q g :
  q = [] \/ q = [Re.dquote] ->
  Re.matches (Re.Opt (Re.Chr (Ascii.eqb Re.dquote))) q g g.
Proof.
  intros [-> | ->]; [apply Re.m_opt_none | apply Re.m_opt_some].
  now constructor.
Qed.

Lemma pattern_matches plus mid hex q ws1 ws2 text g :
  (plus = [] \/ plus = lit "+") ->
  forallb Re.dot mid = true ->
  hex <> [] -> forallb Re.hexdigit hex = true ->
  (q = [] \/ q = [Re.dquote]) ->
  forallb Re.space ws1 = true -> forallb Re.space ws2 = true ->
  text <> [] -> forallb Re.dot text = true ->
  Re.matches pattern
    (lit "MDI_ICONS" ++ plus ++ lit "=" ++ mid ++ lit "0x" ++ hex
     ++ q ++ ws1 ++ lit "#" ++ ws2 ++ text)
    g (g ++ [lit "0x" ++ hex] ++ [text]).
Proof.
  intros Hplus Hmid Hne Hhex Hq H1 H2 Ht Htd. unfold pattern.
  apply Re.m_cat with (g1 := g); [apply matches_lit|].
  apply Re.m_cat with (g1 := g); [now apply matches_opt_plus|].
  apply (Re.m_cat (s1 := lit "=") (g1 := g)); [now constructor|].
  apply Re.m_cat with (g1 := g); [now constructor|].
  apply (Re.m_cat (s1 := []) (g1 := g)); [apply Re.m_opt_none|].
  apply (Re.m_cat (s1 := []) (g1 := g)); [apply Re.m_opt_none|].
  rewrite (app_assoc g).
  match goal with
  | |- Re.matches ?r (_ :: _ :: hex ++ ?t) _ ?g' =>
      change (Re.matches r ((lit "0x" ++ hex) ++ t) g g')
  end.
  apply Re.m_cat with (g1 := g ++ [lit "0x" ++ hex]).
  { constructor. apply Re.m_cat with (g1 := g); [apply matches_lit|].
    now apply matches_plus. }
  apply Re.m_cat with (g1 := g ++ [lit "0x" ++ hex]); [now apply matches_opt_quote|].
  apply Re.m_cat with (g1 := g ++ [lit "0x" ++ hex]); [now constructor|].
  apply (Re.m_cat (s1 := lit "#") (g1 := g ++ [lit "0x" ++ hex])); [now constructor|].
  apply Re.m_cat with (g1 := g ++ [lit "0x" ++ hex]); [now constructor|].
  constructor. now apply matches_plus.
Qed.

(** The pattern is found in a line exactly when the line has the shape of
    a declaration. *)
Lemma search_iff_shape ln :
  Re.search pattern ln <> None <-> declaration_shape ln.
Proof.
  split.
  - destruct (Re.search pattern ln) as [m|] eqn:E; [intros _ | congruence].
    apply search_sound in E as [pre [s1 [post [-> M]]]].
    apply pattern_matches_inv in M
      as (plus & mid & hex & q & ws1 & ws2 & text
          & -> & Hp & Hm & Hn & Hh & Hq & H1 & H2 & Ht & Hd & _).
    exists pre, plus, mid, hex, q, ws1, ws2, text, post.
    repeat split; try assumption. now rewrite <- !app_assoc.
  - intros (pre & plus & mid & hex & q & ws1 & ws2 & text & post
            & -> & Hp & Hm & Hn & Hh & Hq & H1 & H2 & Ht & Hd).
    pose proof (@pattern_matches plus mid hex q ws1 ws2 text [] Hp Hm Hn Hh Hq H1 H2 Ht Hd) as M.
    apply (search_complete pre post) in M.
    now rewrite <- !app_assoc in M.
Qed.

(** *** Running the matcher on a known text *)

Lemma bt_chr_take (A : Type) p c s g (k : str -> list str -> option A) :
  p c = true -> Re.bt (Re.Chr p) (c :: s) g k = k s g.
Proof. simpl. now intros ->. Qed.

Lemma bt_opt_chr_skip (A : Type) p s g (k : str -> list str -> option A) :
  stops p s -> Re.bt (Re.Opt (Re.Chr p)) s g k = k s g.
Proof. destruct s as [|c s]; simpl; [reflexivity | now intros ->]. Qed.

Lemma bt_opt_chr_take (A : Type) p c s g (k : str -> list str -> option A) x :
  p c = true -> k s g = Some x ->
  Re.bt (Re.Opt (Re.Chr p)) (c :: s) g k = Some x.
Proof. simpl. now intros -> ->. Qed.

Lemma bt_lit (A : Type) l s g (k : str -> list str -> option A) :
  Re.bt (Re.Lit l) (l ++ s) g k = k s g.
Proof.
  revert k. induction l as [|c l IH]; intros k; simpl; [reflexivity|].
  rewrite Ascii.eqb_refl. apply IH.
Qed.

Lemma bt_star_stops (A : Type) p u t g (k : str -> list str -> option A) x :
  forallb p u = true -> stops p t -> k t g = Some x ->
  Re.bt (Re.Star p) (u ++ t) g k = Some x.
Proof. intros Hu Ht Hk. simpl. now apply star_stops. Qed.

Lemma bt_plus_stops (A : Type) p u t g (k : str -> list str -> option A) x :
  u <> [] -> forallb p u = true -> stops p t -> k t g = Some x ->
  Re.bt (Re.Plus p) (u ++ t) g k = Some x.
Proof.
  destruct u as [|c u]; [congruence|]. intros _ Hu Ht Hk.
  simpl in Hu. apply andb_true_iff in Hu as [Pc Hu].
  simpl. rewrite Pc. now apply star_stops.
Qed.

(** A group around a run of one class captures the run. *)
Lemma bt_group_plus_stops (A : Type) p u t g
    (k : str -> list str -> option A) x :
  u <> [] -> forallb p u = true -> stops p t -> k t (g ++ [u]) = Some x ->
  Re.bt (Re.Group (Re.Plus p)) (u ++ t) g k = Some x.
Proof.
  intros Hne Hu Ht Hk. cbn [Re.bt].
  change (Re.bt (Re.Plus p) (u ++ t) g
            (fun s' g' => k s' (g' ++ [firstn (List.length (u ++ t) - List.length s') (u ++ t)]))
          = Some x).
  apply bt_plus_stops; try assumption. now rewrite firstn_consumed.
Qed.

Lemma space_not_hexdigit c : Re.space c = true -> Re.hexdigit c = false.
Proof. by_ascii_cases c. Qed.

Lemma space_not_quote c : Re.space c = true -> Ascii.eqb Re.dquote c = false.
Proof. by_ascii_cases c. Qed.

Lemma newline_is_space : Re.space Re.LF = true.
Proof. reflexivity. Qed.

Lemma line_end_stops eol : line_end eol -> stops Re.dot eol.
Proof. intros [-> | ->]; [exact I | reflexivity]. Qed.

Lemma comment_group_none eol g :
  line_end eol -> forall t l, eol = l ++ t ->
  Re.bt (Re.Group (Re.Plus Re.dot)) t g Re.found = None.
Proof.
  intros [-> | ->] t l E.
  - destruct l; [|discriminate]. simpl in E. now subst t.
  - destruct l as [|c [|d l]]; simpl in E; try discriminate.
    + now subst t.
    + injection E as _ <-. reflexivity.
Qed.

(** [\s*(.+)] on the text after the comment mark: the group is the text
    from its first character that is not white space, or the last
    character of a text that is all white space. *)
Lemma comment_exact ws2 body eol g :
  forallb Re.space ws2 = true ->
  body <> [] -> stops Re.space body \/ List.length body = 1 ->
  forallb Re.dot body = true ->
  line_end eol ->
  Re.bt (Re.Star Re.space >> Re.Group (Re.Plus Re.dot))%re
     (ws2 ++ body ++ eol) g Re.found
  = Some (g ++ [body]).
Proof.
  intros Hws Hne Hb Hd He.
  change (Re.star Re.space (ws2 ++ body ++ eol)
            (fun s' => Re.bt (Re.Group (Re.Plus Re.dot)) s' g Re.found)
          = Some (g ++ [body])).
  assert (Re.bt (Re.Group (Re.Plus Re.dot)) (body ++ eol) g Re.found
          = Some (g ++ [body])) as Hk.
  { apply bt_group_plus_stops; try assumption; [|reflexivity].
    now apply line_end_stops. }
  destruct body as [|c body]; [congruence|].
  destruct (Re.space c) eqn:Sc.
  - destruct Hb as [Hb | Hb]; [simpl in Hb; congruence|].
    destruct body; [|discriminate].
    apply star_greedy; [assumption | exact Hk |].
    intros u' t' E Hu' Hlen.
    apply app_eq_app in E as [l [[E1 E2] | [E1 E2]]].
    + apply (f_equal (@List.length _)) in E1. rewrite length_app in E1. lia.
    + destruct l as [|d l].
      * rewrite app_nil_r in E1. subst u'. lia.
      * injection E2 as _ E2. now apply (comment_group_none g He t' l).
  - now apply star_stops.
Qed.

Lemma bt_cat (A : Type) r1 r2 s g (k : str -> list str -> option A) :
  Re.bt (Re.Cat r1 r2) s g k = Re.bt r1 s g (fun s' g' => Re.bt r2 s' g' k).
Proof. reflexivity. Qed.

Lemma bt_group (A : Type) r s g (k : str -> list str -> option A) :
  Re.bt (Re.Group r) s g k =
  Re.bt r s g
    (fun s' g' => k s' (g' ++ [firstn (List.length s - List.length s') s])).
Proof. reflexivity. Qed.

Lemma stops_after_hex q ws1 rest :
  (q = [] \/ q = [Re.dquote]) -> forallb Re.space ws1 = true ->
  stops Re.hexdigit (q ++ ws1 ++ lit "#" ++ rest).
Proof.
  intros [-> | ->] Hw; [|reflexivity].
  destruct ws1 as [|w ws1]; [reflexivity|].
  simpl in *. apply andb_true_iff in Hw as [Hw _]. now apply space_not_hexdigit.
Qed.

Lemma stops_quote ws1 rest :
  forallb Re.space ws1 = true ->
  stops (Ascii.eqb Re.dquote) (ws1 ++ lit "#" ++ rest).
Proof.
  intros Hw. destruct ws1 as [|w ws1]; [reflexivity|].
  simpl in *. apply andb_true_iff in Hw as [Hw _]. now apply space_not_quote.
Qed.

(** The part of the pattern after [.*], run where a codepoint stands: the
    groups are the codepoint and the comment. *)
Lemma site_exact hex q ws1 ws2 body eol g :
  hex <> [] -> forallb Re.hexdigit hex = true ->
  (q = [] \/ q = [Re.dquote]) ->
  forallb Re.space ws1 = true -> forallb Re.space ws2 = true ->
  body <> [] -> stops Re.space body \/ List.length body = 1 ->
  forallb Re.dot body = true ->
  line_end eol ->
  Re.bt site_pattern
    (lit "0x" ++ hex ++ q ++ ws1 ++ lit "#" ++ ws2 ++ body ++ eol) g Re.found
  = Some (g ++ [lit "0x" ++ hex] ++ [body]).
Proof.
  intros Hne Hhex Hq H1 H2 Hb Hbs Hbd He. unfold site_pattern.
  rewrite bt_cat, bt_opt_chr_skip by reflexivity.
  rewrite bt_cat, bt_opt_chr_skip by reflexivity.
  rewrite bt_cat, bt_group, bt_cat, bt_lit.
  apply bt_plus_stops; try assumption; [now apply stops_after_hex|].
  match goal with
  | |- context [firstn ?n ?s] =>
      replace (firstn n s) with (lit "0x" ++ hex)
  end.
  2:{ symmetry. rewrite app_assoc. apply firstn_consumed. }
  rewrite (app_assoc g).
  set (g1 := g ++ [lit "0x" ++ hex]).
  assert (Re.bt (Re.Star Re.space >> Re.Chr (Ascii.eqb "#") >> Re.Star Re.space
                 >> Re.Group (Re.Plus Re.dot))%re
            (ws1 ++ lit "#" ++ ws2 ++ body ++ eol) g1 Re.found
          = Some (g1 ++ [body])) as Hrest.
  { rewrite bt_cat. apply bt_star_stops; [assumption | reflexivity |].
    change (lit "#" ++ ws2 ++ body ++ eol) with ("#"%char :: ws2 ++ body ++ eol).
    rewrite bt_cat, bt_chr_take by reflexivity.
    now apply comment_exact. }
  rewrite bt_cat. destruct Hq as [-> | ->].
  - rewrite bt_opt_chr_skip by now apply stops_quote. exact Hrest.
  - apply bt_opt_chr_take; [reflexivity | exact Hrest].
Qed.

(** *** Where the pattern cannot match *)

Lemma zx_hash_unfold c s :
  zx_hash (c :: s) =
  match s with
  | c2 :: r => Ascii.eqb "0" c && Ascii.eqb "x" c2 && existsb (Ascii.eqb "#") r
  | [] => false
  end || zx_hash s.
Proof. reflexivity. Qed.

Lemma zx_hash_intro a b c :
  zx_hash (a ++ "0" :: "x" :: b ++ "#" :: c) = true.
Proof.
  induction a as [|x a IH].
  - simpl app. rewrite zx_hash_unfold. apply orb_true_iff. left.
    rewrite !andb_true_iff. repeat split; try apply Ascii.eqb_refl.
    apply existsb_exists. exists "#"%char. split; [|apply Ascii.eqb_refl].
    apply in_or_app. right. now left.
  - simpl app. rewrite zx_hash_unfold, IH. apply orb_true_r.
Qed.

Lemma zx_hash_suffix w s : zx_hash (w ++ s) = false -> zx_hash s = false.
Proof.
  induction w as [|c w IH]; [exact id|].
  simpl app. rewrite zx_hash_unfold. intros H.
  apply orb_false_iff in H as [_ H]. now apply IH.
Qed.

Lemma zx_hash_no_hash t c :
  existsb (Ascii.eqb "#") t = false -> zx_hash (c :: t) = false.
Proof.
  revert c. induction t as [|d t IH]; intros c H; [reflexivity|].
  simpl in H. apply orb_false_iff in H as [_ H].
  rewrite zx_hash_unfold, H, andb_false_r. simpl. now apply IH.
Qed.

Lemma zx_hash_no_x y t :
  forallb (fun c => negb (Ascii.eqb "x" c)) y = true ->
  existsb (Ascii.eqb "#") t = false ->
  zx_hash (y ++ "#"%char :: t) = false.
Proof.
  intros Hy Ht. induction y as [|c y IH].
  - now apply zx_hash_no_hash.
  - simpl in Hy. apply andb_true_iff in Hy as [Hc Hy].
    simpl app. rewrite zx_hash_unfold, (IH Hy), orb_false_r.
    destruct y as [|d y]; simpl.
    + now rewrite andb_false_r.
    + simpl in Hy. apply andb_true_iff in Hy as [Hd _].
      apply negb_true_iff in Hd. now rewrite Hd, andb_false_r.
Qed.

Lemma hexdigit_not_x c : Re.hexdigit c = true -> negb (Ascii.eqb "x" c) = true.
Proof. by_ascii_cases c. Qed.

Lemma space_not_x c : Re.space c = true -> negb (Ascii.eqb "x" c) = true.
Proof. by_ascii_cases c. Qed.

Lemma forallb_impl (A : Type) (p q : A -> bool) l :
  (forall x, p x = true -> q x = true) ->
  forallb p l = true -> forallb q l = true.
Proof.
  intros H. induction l as [|x l IH]; simpl; [reflexivity|].
  intros Hl. apply andb_true_iff in Hl as [Hx Hl]. now rewrite H, IH.
Qed.

(** Whatever the part of the pattern after [.*] matches at the start of
    a string, the string has [0x] and a later [#]. *)
Lemma site_needs_mark s g x :
  Re.bt site_pattern s g Re.found = Some x -> zx_hash s = true.
Proof.
  intros H. apply bt_sound in H as (s1 & s2 & g' & -> & M & _).
  apply site_matches_inv in M
    as (before & hex & q & ws1 & ws2 & text & -> & _).
  change (lit "0x" ++ hex ++ q ++ ws1 ++ lit "#" ++ ws2 ++ text)
    with ("0"%char :: "x"%char :: hex ++ q ++ ws1 ++ "#"%char :: ws2 ++ text).
  rewrite <- app_assoc. simpl app.
  rewrite (app_assoc hex), (app_assoc (hex ++ q)).
  rewrite <- (app_assoc _ ("#"%char :: ws2 ++ text) s2). simpl app.
  apply zx_hash_intro.
Qed.

(** Past the codepoint of a line with no second [#], it matches nowhere. *)
Lemma site_fail hex q ws1 rest w t g :
  forallb Re.hexdigit hex = true ->
  (q = [] \/ q = [Re.dquote]) ->
  forallb Re.space ws1 = true ->
  existsb (Ascii.eqb "#") rest = false ->
  lit "0x" ++ hex ++ q ++ ws1 ++ lit "#" ++ rest = w ++ t -> w <> [] ->
  Re.bt site_pattern t g Re.found = None.
Proof.
  intros Hhex Hq Hws Hrest E Hw.
  destruct (Re.bt site_pattern t g Re.found) as [x|] eqn:B; [|reflexivity].
  apply site_needs_mark in B.
  destruct w as [|c w]; [congruence|]. simpl in E. injection E as _ E.
  assert (zx_hash ("x"%char :: hex ++ q ++ ws1 ++ "#"%char :: rest) = false) as Z.
  { rewrite zx_hash_unfold.
    rewrite (app_assoc hex), (app_assoc (hex ++ q)).
    rewrite zx_hash_no_x; [| |assumption].
    - destruct (((hex ++ q) ++ ws1) ++ "#"%char :: rest); reflexivity.
    - rewrite !forallb_app. rewrite !andb_true_iff. repeat split.
      + revert Hhex. apply forallb_impl, hexdigit_not_x.
      + destruct Hq as [-> | ->]; reflexivity.
      + revert Hws. apply forallb_impl, space_not_x. }
  rewrite E in Z. apply zx_hash_suffix in Z. congruence.
Qed.

(** *** A declaration line with one comment mark *)

Lemma space_not_hash c : Re.space c = true -> Ascii.eqb "#" c = false.
Proof. by_ascii_cases c. Qed.

Lemma existsb_false_app (A : Type) (p : A -> bool) l1 l2 :
  existsb p l1 = false -> existsb p l2 = false -> existsb p (l1 ++ l2) = false.
Proof. intros H1 H2. now rewrite existsb_app, H1, H2. Qed.

Lemma space_no_hash ws : forallb Re.space ws = true -> existsb (Ascii.eqb "#") ws = false.
Proof.
  induction ws as [|c ws IH]; simpl; [reflexivity|].
  intros H. apply andb_true_iff in H as [Hc Hw].
  now rewrite (space_not_hash _ Hc), IH.
Qed.

Section Declaration.

Variables hex q ws1 ws2 body eol : str.

Hypothesis hex_some : hex <> [].
Hypothesis hex_digits : forallb Re.hexdigit hex = true.
Hypothesis quote_or_not : q = [] \/ q = [Re.dquote].
Hypothesis ws1_space : forallb Re.space ws1 = true.
Hypothesis ws2_space : forallb Re.space ws2 = true.
Hypothesis body_some : body <> [].
Hypothesis body_clean : stops Re.space body \/ List.length body = 1.
Hypothesis body_line : forallb Re.dot body = true.
Hypothesis body_no_hash : existsb (Ascii.eqb "#") body = false.
Hypothesis eol_end : line_end eol.

Local Abbreviation site :=
  (lit "0x" ++ hex ++ q ++ ws1 ++ lit "#" ++ ws2 ++ body ++ eol).
Local Abbreviation groups := [lit "0x" ++ hex; body].

Lemma rest_no_hash : existsb (Ascii.eqb "#") (ws2 ++ body ++ eol) = false.
Proof.
  apply existsb_false_app; [now apply space_no_hash|].
  apply existsb_false_app; [assumption|].
  destruct eol_end as [-> | ->]; reflexivity.
Qed.

Lemma site_found : Re.bt site_pattern site [] Re.found = Some groups.
Proof. now rewrite site_exact. Qed.

Lemma site_past w t :
  site = w ++ t -> w <> [] -> Re.bt site_pattern t [] Re.found = None.
Proof.
  intros E Hw.
  apply site_fail
    with (hex := hex) (q := q) (ws1 := ws1) (rest := ws2 ++ body ++ eol) (w := w);
    auto using rest_no_hash.
Qed.

(** [.*] runs up to the codepoint. *)
Lemma dotstar_exact mid :
  forallb Re.dot mid = true ->
  Re.star Re.dot (mid ++ site) (fun s' => Re.bt site_pattern s' [] Re.found)
  = Some groups.
Proof.
  intros Hmid. apply star_greedy; [assumption | apply site_found |].
  intros u' t' E Hu' Hlen.
  apply app_eq_app in E as [l [[E1 E2] | [E1 E2]]].
  - apply (f_equal (@List.length _)) in E1. rewrite length_app in E1. lia.
  - apply site_past with (w := l); [assumption|].
    intros ->. rewrite app_nil_r in E1. subst u'. lia.
Qed.

(** No text after the codepoint lets [.*] and the rest match. *)
Lemma dotstar_past w t :
  site = w ++ t -> w <> [] ->
  Re.star Re.dot t (fun s' => Re.bt site_pattern s' [] Re.found) = None.
Proof.
  intros E Hw. apply star_none. intros u t' -> _.
  apply site_past with (w := w ++ u).
  - now rewrite <- app_assoc.
  - destruct w; [congruence | discriminate].
Qed.

Lemma bt_pattern_split s :
  Re.bt pattern s [] Re.found =
  Re.bt head_pattern s []
    (fun s' g' => Re.star Re.dot s' (fun s'' => Re.bt site_pattern s'' g' Re.found)).
Proof. reflexivity. Qed.

(** Wherever the pattern is tried before the codepoint, it can only find
    this codepoint and this comment. *)
Lemma attempt_exact before y :
  forallb Re.dot before = true ->
  Re.bt pattern (before ++ site) [] Re.found = Some y -> y = groups.
Proof.
  intros Hb H. rewrite bt_pattern_split in H.
  apply bt_sound in H as (s1 & s2 & g' & E & M & H).
  apply head_matches_inv in M as [-> _].
  apply app_eq_app in E as [l [[E1 E2] | [E1 E2]]].
  - subst s2 before. rewrite forallb_app in Hb.
    apply andb_true_iff in Hb as [_ Hl].
    rewrite (dotstar_exact l Hl) in H. congruence.
  - destruct l as [|c l].
    + cbn [app] in E2. subst s2. pose proof (dotstar_exact [] eq_refl) as D.
      cbn [app] in D. rewrite D in H. congruence.
    + rewrite (@dotstar_past (c :: l) s2 E2) in H; [discriminate|]. discriminate.
Qed.

Variables pre plus mid : str.

Hypothesis pre_line : forallb Re.dot pre = true.
Hypothesis plus_or_not : plus = [] \/ plus = lit "+".
Hypothesis mid_line : forallb Re.dot mid = true.

Local Abbreviation declaration :=
  (lit "MDI_ICONS" ++ plus ++ lit "=" ++ mid ++ site).

Lemma declaration_line : forallb Re.dot (lit "MDI_ICONS" ++ plus ++ lit "=" ++ mid) = true.
Proof.
  rewrite !forallb_app, mid_line.
  destruct plus_or_not as [-> | ->]; reflexivity.
Qed.

Lemma declaration_found : Re.bt pattern declaration [] Re.found = Some groups.
Proof.
  destruct (Re.bt pattern declaration [] Re.found) as [y|] eqn:E.
  - f_equal. apply attempt_exact with (before := lit "MDI_ICONS" ++ plus ++ lit "=" ++ mid).
    + apply declaration_line.
    + now rewrite <- !app_assoc.
  - exfalso. revert E.
    assert (declaration =
            (lit "MDI_ICONS" ++ plus ++ lit "=" ++ mid ++ lit "0x" ++ hex
             ++ q ++ ws1 ++ lit "#" ++ ws2 ++ body) ++ eol) as ->
      by now rewrite <- !app_assoc.
    apply bt_complete with (g' := [] ++ [lit "0x" ++ hex] ++ [body]);
      [now apply pattern_matches | discriminate].
Qed.

(** [pattern.search] on the line, whatever stands before the declaration. *)
Lemma search_exact : Re.search pattern (pre ++ declaration) = Some groups.
Proof.
  assert (forall a b y, pre = a ++ b ->
            Re.bt pattern (b ++ declaration) [] Re.found = Some y -> y = groups)
    as Hany.
  { intros a b y E H. subst pre. rewrite forallb_app in pre_line.
    apply andb_true_iff in pre_line as [_ Hb].
    apply attempt_exact
      with (before := b ++ lit "MDI_ICONS" ++ plus ++ lit "=" ++ mid).
    - rewrite forallb_app, Hb. apply declaration_line.
    - now rewrite <- !app_assoc. }
  clear pre_line. induction pre as [|c l IH]; rewrite search_unfold.
  - cbn [app]. now rewrite declaration_found.
  - destruct (Re.bt pattern ((c :: l) ++ declaration) [] Re.found) as [y|] eqn:E.
    + f_equal. now apply (Hany [] (c :: l)).
    + cbn [app]. apply IH. intros a b y Hl. apply (Hany (c :: a) b). simpl.
      now rewrite Hl.
Qed.

End Declaration.

(** ** The declaration parser *)

Lemma hexdigit_upper_not_X c :
  Re.hexdigit c = true -> Ascii.eqb "X" (Str.upper_char c) = false.
Proof. by_ascii_cases c. Qed.

Lemma replace_0X_none s :
  forallb (fun c => negb (Ascii.eqb "X" c)) s = true ->
  Str.replace (lit "0X") [] s = s.
Proof.
  unfold Str.replace. induction s as [|c s IH]; [reflexivity|].
  intros H. simpl in H. apply andb_true_iff in H as [_ Hs].
  cbn [Str.replace_from].
  assert (Str.startswith (c :: s) (lit "0X") = false) as ->.
  { simpl. destruct s as [|d s]; [apply andb_false_r|].
    simpl in Hs. apply andb_true_iff in Hs as [Hd _].
    apply negb_true_iff in Hd. now rewrite Hd, andb_false_r. }
  now rewrite IH.
Qed.

(** The codepoint of an entry: the prefix goes, the digits are upper-cased. *)
Lemma codepoint_of_group hex :
  forallb Re.hexdigit hex = true ->
  Str.replace (lit "0X") [] (Str.upper (lit "0x" ++ hex)) = Str.upper hex.
Proof.
  intros H.
  change (Str.upper (lit "0x" ++ hex)) with ("0"%char :: "X"%char :: Str.upper hex).
  unfold Str.replace. cbn [Str.replace_from]. simpl Str.startswith.
  change (List.length (lit "0X") - 1) with 1. cbn iota beta. simpl app.
  change (Str.replace (lit "0X") [] (Str.upper hex) = Str.upper hex).
  apply replace_0X_none.
  unfold Str.upper. induction hex as [|c hex IH]; [reflexivity|].
  simpl in H. apply andb_true_iff in H as [Hc H].
  simpl. now rewrite hexdigit_upper_not_X, IH.
Qed.

Lemma forallb_suffix (A : Type) (p : A -> bool) l1 l2 :
  forallb p (l1 ++ l2) = true -> forallb p l2 = true.
Proof. rewrite forallb_app. intros H. now apply andb_true_iff in H. Qed.

Lemma existsb_suffix_false (A : Type) (p : A -> bool) l1 l2 :
  existsb p (l1 ++ l2) = false -> existsb p l2 = false.
Proof. rewrite existsb_app. intros H. now apply orb_false_iff in H. Qed.

Lemma strip_space ws : forallb Str.isspace ws = true -> Str.strip ws = [].
Proof.
  intros H. rewrite <- (app_nil_r ws), strip_app_space_l by assumption.
  reflexivity.
Qed.

(** What [\s*(.+)] captures of the text after the comment mark. *)
Lemma comment_split text :
  text <> [] ->
  exists ws2 body,
    text = ws2 ++ body /\ forallb Re.space ws2 = true /\ body <> [] /\
    (stops Re.space body \/ List.length body = 1) /\
    Str.strip body = Str.strip text.
Proof.
  intros Hne. destruct (Str.lstrip text) as [|c t] eqn:L.
  - pose proof (lstrip_nil_space _ L) as Hs.
    exists (removelast text), [last text " "%char].
    rewrite <- app_removelast_last by assumption.
    assert (forallb Str.isspace (removelast text ++ [last text " "%char]) = true)
      as Hall by now rewrite <- app_removelast_last.
    rewrite forallb_app in Hall. apply andb_true_iff in Hall as [H1 H2].
    repeat split; try assumption; try discriminate.
    + now right.
    + now rewrite !strip_space.
  - destruct (lstrip_decomp text) as [ws2 [E Hws2]].
    exists ws2, (Str.lstrip text). repeat split; try assumption.
    + now rewrite L.
    + left. apply lstrip_starts_clean.
    + unfold Str.strip. now rewrite lstrip_clean by apply lstrip_starts_clean.
Qed.

(** A line with a declaration and a comment that has no [#] in it:
    the entry holds the codepoint in upper case and the trimmed comment. *)
Lemma parse_line_exact n pre plus mid hex q ws1 text eol :
  forallb Re.dot pre = true ->
  (plus = [] \/ plus = lit "+") ->
  forallb Re.dot mid = true ->
  hex <> [] -> forallb Re.hexdigit hex = true ->
  (q = [] \/ q = [Re.dquote]) ->
  forallb Re.space ws1 = true ->
  text <> [] ->
  forallb Re.dot text = true ->
  existsb (Ascii.eqb "#") text = false ->
  line_end eol ->
  let ln := pre ++ lit "MDI_ICONS" ++ plus ++ lit "=" ++ mid ++ lit "0x" ++ hex
            ++ q ++ ws1 ++ lit "#" ++ text ++ eol in
  parse_line n ln =
  Some {| line := n; codepoint := Str.upper hex;
          comment := Str.strip text; raw := Str.strip ln |}.
Proof.
  intros Hpre Hplus Hmid Hne Hhex Hq Hws1 Hte Htd Hth He ln.
  destruct (comment_split Hte) as (ws2 & body & Et & Hws2 & Hb & Hbc & Hs).
  assert (Re.search pattern ln = Some [lit "0x" ++ hex; body]) as S.
  { unfold ln. rewrite Et, <- (app_assoc ws2 body eol).
    apply search_exact; try assumption.
    - rewrite Et in Htd. now apply forallb_suffix in Htd.
    - rewrite Et in Hth. now apply existsb_suffix_false in Hth. }
  unfold parse_line. rewrite S.
  change (Re.group [lit "0x" ++ hex; body] 1) with (lit "0x" ++ hex).
  change (Re.group [lit "0x" ++ hex; body] 2) with body.
  rewrite codepoint_of_group by assumption. now rewrite Hs.
Qed.

(** What an entry holds comes from a reading of its line in the shape of
    a declaration. *)
Lemma parse_line_sound n ln e :
  parse_line n ln = Some e ->
  line e = n /\ raw e = Str.strip ln /\
  exists pre plus mid hex q ws1 ws2 text post,
    ln = pre ++ lit "MDI_ICONS" ++ plus ++ lit "=" ++ mid ++ lit "0x" ++ hex
         ++ q ++ ws1 ++ lit "#" ++ ws2 ++ text ++ post /\
    (plus = [] \/ plus = lit "+") /\
    forallb Re.dot mid = true /\
    hex <> [] /\ forallb Re.hexdigit hex = true /\
    (q = [] \/ q = [Re.dquote]) /\
    forallb Re.space ws1 = true /\ forallb Re.space ws2 = true /\
    text <> [] /\ forallb Re.dot text = true /\
    codepoint e = Str.upper hex /\ comment e = Str.strip text.
Proof.
  unfold parse_line. destruct (Re.search pattern ln) as [m|] eqn:S; [|discriminate].
  intros [= <-]. simpl. repeat split.
  apply search_sound in S as (pre & s1 & post & -> & M).
  apply pattern_matches_inv in M
    as (plus & mid & hex & q & ws1 & ws2 & text
        & -> & Hp & Hm & Hn & Hh & Hq & H1 & H2 & Ht & Hd & ->).
  exists pre, plus, mid, hex, q, ws1, ws2, text, post.
  repeat split; try assumption.
  - now rewrite <- !app_assoc.
  - change (Re.group ([] ++ [lit "0x" ++ hex] ++ [text]) 1) with (lit "0x" ++ hex).
    now apply codepoint_of_group.
Qed.

Lemma parse_line_iff_shape n ln :
  (exists e, parse_line n ln = Some e) <-> declaration_shape ln.
Proof.
  rewrite <- search_iff_shape. unfold parse_line.
  destruct (Re.search pattern ln) as [m|]; split.
  - discriminate.
  - eauto.
  - intros [e H]. discriminate.
  - congruence.
Qed.


(** The loop of the parser computes the list comprehension. *)
Lemma parse_loop start lines entries :
  fold_left
    (fun entries nl =>
       match parse_line (fst nl) (snd nl) with
       | Some e => entries ++ [e]
       | None => entries
       end)
    (enumerate start lines) entries
  = entries ++ entries_from start lines.
Proof.
  revert start entries. induction lines as [|ln lines IH]; intros start entries.
  - simpl. now rewrite app_nil_r.
  - simpl. rewrite IH. destruct (parse_line start ln); [|reflexivity].
    now rewrite <- app_assoc.
Qed.

Lemma parse_regen_script_entries contents :
  parse_regen_script contents = entries_from 1 (readlines contents).
Proof. unfold parse_regen_script. now rewrite parse_loop. Qed.

Lemma entries_from_in start lines e :
  In e (entries_from start lines) <->
  exists i ln, nth_error lines i = Some ln /\ parse_line (start + i) ln = Some e.
Proof.
  revert start. induction lines as [|l lines IH]; intros start; simpl.
  - split; [intros [] | intros [[|i] [ln [H _]]]; discriminate].
  - assert (In e (entries_from (S start) lines) <->
            exists i ln, nth_error lines i = Some ln /\
                         parse_line (start + S i) ln = Some e) as IH'.
    { rewrite IH. split; intros [i [ln [H1 H2]]]; exists i, ln;
        (split; [assumption|]); now rewrite <- plus_n_Sm in *. }
    destruct (parse_line start l) as [e0|] eqn:P; simpl; rewrite ?IH'; split.
    + intros [<- | [i [ln [H1 H2]]]].
      * exists 0, l. now rewrite Nat.add_0_r.
      * exists (S i), ln. auto.
    + intros [[|i] [ln [H1 H2]]].
      * left. simpl in H1. injection H1 as <-. rewrite Nat.add_0_r in H2. congruence.
      * right. exists i, ln. auto.
    + intros [i [ln [H1 H2]]]. exists (S i), ln. auto.
    + intros [[|i] [ln [H1 H2]]].
      * simpl in H1. injection H1 as <-. rewrite Nat.add_0_r in H2. congruence.
      * exists i, ln. auto.
Qed.


Lemma parse_line_line n ln e : parse_line n ln = Some e -> line e = n.
Proof. intros H. now apply parse_line_sound in H. Qed.

Lemma entries_from_lower start lines e :
  In e (entries_from start lines) -> start <= line e.
Proof.
  intros H. apply entries_from_in in H as [i [ln [_ H]]].
  apply parse_line_line in H. lia.
Qed.

(** The entries come in the order of the lines. *)
Lemma entries_from_sorted start lines :
  StronglySorted lt (map line (entries_from start lines)).
Proof.
  revert start. induction lines as [|l lines IH]; intros start; simpl.
  - constructor.
  - destruct (parse_line start l) as [e|] eqn:P; [|apply IH].
    simpl. constructor; [apply IH|].
    apply Forall_forall. intros n Hn. apply in_map_iff in Hn as [e' [<- He']].
    apply entries_from_lower in He'. apply parse_line_line in P. lia.
Qed.

(** * The properties the specification states *)

(** ** The name normalizer *)

(** C6 (defect of the code).  The specification's wording is what the
    code's own comment asks for, "the first word/phrase before any
    parenthesis or dash description", and the code misses it on a comment
    whose dash description is empty: it trims the text before the
    parenthesis first, so in "close - (xmark)" the " - " it then looks for
    is no longer there and the hyphen stays, where the wording gives
    "close".  With a description between the dash and the parenthesis, as
    in "foo - bar (x)", the code does drop the suffix. *)
Lemma normalizer_not_as_specified :
  extract_icon_name_from_comment (lit "close - (xmark)") = lit "close -" /\
  normalizer_as_specified (lit "close - (xmark)") = lit "close" /\
  extract_icon_name_from_comment (lit "close - (xmark)")
  <> normalizer_as_specified (lit "close - (xmark)") /\
  extract_icon_name_from_comment (lit "foo - bar (x)") = lit "foo" /\
  normalizer_as_specified (lit "foo - bar (x)") = lit "foo".
Proof. repeat split. discriminate. Qed.

(** Where the code and the wording agree.  The code's steps are: the text
    before the first "(", trimmed; the text of that before the first
    " - "; that text trimmed and in lower case.  Its result is the one of
    the specification's wording whenever the trimmed text before the
    first "(" neither begins nor ends with a hyphen, which covers the two
    examples of the specification. *)
Lemma normalizer_policy (comment : str) :
  (exists before_paren before_dash,
     is_head (lit "(") comment before_paren /\
     is_head (lit " - ") (Str.strip before_paren) before_dash /\
     extract_icon_name_from_comment comment
     = Str.lower (Str.strip before_dash)) /\
  (hd "x"%char (Str.strip (Str.split_head (lit "(") comment)) <> "-"%char ->
   last (Str.strip (Str.split_head (lit "(") comment)) "x"%char <> "-"%char ->
   extract_icon_name_from_comment comment = normalizer_as_specified comment) /\
  extract_icon_name_from_comment (lit "arrow-up-down (bidirectional vertical)")
  = lit "arrow-up-down" /\
  extract_icon_name_from_comment (lit "close (xmark)") = lit "close".
Proof.
  split; [|split; [|split; reflexivity]].
  - exists (Str.split_head (lit "(") comment),
      (Str.split_head (lit " - ") (Str.strip (Str.split_head (lit "(") comment))).
    repeat split; try apply split_head_is_head. apply normalizer_unfold.
  - apply normalizer_agrees.
Qed.

Lemma normalizer_policy_witness :
  extract_icon_name_from_comment (lit "wifi - strong (signal)")
  = normalizer_as_specified (lit "wifi - strong (signal)").
Proof.
  apply (normalizer_policy (lit "wifi - strong (signal)")); discriminate.
Defined.

(** C7.  The normalizer is idempotent. *)
Theorem normalizer_idempotent (s : str) :
  extract_icon_name_from_comment (extract_icon_name_from_comment s)
  = extract_icon_name_from_comment s.
Proof.
  apply normalizer_fixpoint.
  - apply normalizer_no_paren.
  - apply normalizer_no_dash.
  - apply normalizer_trimmed.
  - apply normalizer_lowercase.
Qed.

(** ** The verifier *)

(** C1, as stated, fails on what a MISMATCH records: the claimed name of
    the error is the normalizer's output as it is, not the name with
    underscores and spaces turned into hyphens that was compared. *)
Lemma recorded_claimed_name_not_canonical :
  let entry := sample_entry "F0006" "my icon" in
  Dict.get sample_index (codepoint entry) = Some (lit "account") /\
  claimed_normalized_of (comment entry) = lit "my-icon" /\
  verify_entry sample_index ([], 0) entry
  = ([MISMATCH 1 (lit "F0006") (lit "my icon") (lit "account") (lit "my icon")], 0) /\
  verify_entry sample_index ([], 0) entry
  <> ([MISMATCH 1 (lit "F0006") (claimed_normalized_of (comment entry))
         (lit "account") (lit "my icon")], 0).
Proof. repeat split. discriminate. Qed.

(** C1 (amended).  For an entry whose codepoint is in the index, with
    [actual] the name the index holds and [claimed] the normalizer's output
    with underscores and spaces turned into hyphens, three rules apply in
    order: [claimed = actual] verifies the entry; otherwise [actual]
    starting with [claimed], or [claimed] being a substring of [actual],
    verifies it; otherwise one MISMATCH error is added, which records the
    normalizer's output as it is (before the hyphens) as the claimed name
    and the value of the index as the actual name. *)
Theorem verifier_three_rules cp_to_name entry errors ok_count actual :
  Dict.get cp_to_name (codepoint entry) = Some actual ->
  let claimed := claimed_normalized_of (comment entry) in
  let result := verify_entry cp_to_name (errors, ok_count) entry in
  (claimed = actual -> result = (errors, S ok_count)) /\
  (claimed <> actual ->
   (exists t, actual = claimed ++ t) \/ (exists a b, actual = a ++ claimed ++ b) ->
   result = (errors, S ok_count)) /\
  (claimed <> actual ->
   ~ (exists t, actual = claimed ++ t) ->
   ~ (exists a b, actual = a ++ claimed ++ b) ->
   result =
   (errors ++ [MISMATCH (line entry) (codepoint entry)
                 (extract_icon_name_from_comment (comment entry))
                 actual (comment entry)],
    ok_count)).
Proof.
  intros G claimed result. unfold result.
  rewrite (verify_entry_present _ _ _ _ G). fold claimed. cbv zeta.
  repeat split.
  - intros E. apply eqb_eq in E. now rewrite E.
  - intros N H. apply eqb_neq in N. rewrite N.
    rewrite <- startswith_iff, <- contains_iff, <- orb_true_iff in H.
    now rewrite H.
  - intros N H1 H2. apply eqb_neq in N. rewrite N.
    rewrite <- startswith_iff in H1. rewrite <- contains_iff in H2.
    apply not_true_is_false in H1, H2. now rewrite H1, H2.
Qed.

Lemma verifier_three_rules_witness :
  verify_entry sample_index ([], 0) (sample_entry "F0006" "home")
  = ([MISMATCH 1 (lit "F0006") (lit "home") (lit "account") (lit "home")], 0).
Proof.
  apply (@verifier_three_rules sample_index (sample_entry "F0006" "home")
           [] 0 (lit "account") eq_refl).
  - discriminate.
  - intros [t H]. discriminate.
  - intros [a [b H]].
    assert (Str.contains (lit "account") (lit "home") = true) as C
      by (apply contains_iff; now exists a, b).
    discriminate.
Defined.

(** C3.  An entry whose codepoint is not in the index adds one INVALID
    error, whatever its comment and whatever names the index holds. *)
Theorem absent_codepoint_invalid cp_to_name entry errors ok_count :
  Dict.get cp_to_name (codepoint entry) = None ->
  verify_entry cp_to_name (errors, ok_count) entry
  = (errors ++ [INVALID (line entry) (codepoint entry) (comment entry)
                  (lit "Codepoint " ++ codepoint entry
                   ++ lit " does not exist in MDI!")],
     ok_count) /\
  (forall text,
     exists message,
       verify_entry cp_to_name (errors, ok_count)
         {| line := line entry; codepoint := codepoint entry;
            comment := text; raw := raw entry |}
       = (errors ++ [INVALID (line entry) (codepoint entry) text message],
          ok_count)) /\
  (forall other,
     Dict.get other (codepoint entry) = None ->
     verify_entry other (errors, ok_count) entry
     = verify_entry cp_to_name (errors, ok_count) entry).
Proof.
  intros G. repeat split.
  - now apply verify_entry_absent.
  - intros text. eexists. now rewrite verify_entry_absent.
  - intros other G'. now rewrite !verify_entry_absent.
Qed.

Lemma absent_codepoint_invalid_witness :
  verify_entry sample_index ([], 0) (sample_entry "FFFFF" "account")
  = ([INVALID 1 (lit "FFFFF") (lit "account")
        (lit "Codepoint FFFFF does not exist in MDI!")], 0).
Proof.
  exact (proj1 (@absent_codepoint_invalid sample_index
                  (sample_entry "FFFFF" "account") [] 0 eq_refl)).
Defined.

(** C9.  Each entry is counted exactly once, as verified or as one error:
    a step of the loop either adds one to the count of verified entries
    or appends one INVALID or one MISMATCH error, and at the end the count
    plus the number of errors is the number of entries. *)
Theorem one_result_per_entry cp_to_name :
  (forall errors ok_count entry,
     let result := verify_entry cp_to_name (errors, ok_count) entry in
     result = (errors, S ok_count) \/
     (exists message,
        result = (errors ++ [INVALID (line entry) (codepoint entry)
                               (comment entry) message], ok_count)) \/
     (exists claimed actual,
        result = (errors ++ [MISMATCH (line entry) (codepoint entry)
                               claimed actual (comment entry)], ok_count))) /\
  (forall entries,
     snd (verify cp_to_name entries) + List.length (fst (verify cp_to_name entries))
     = List.length entries).
Proof.
  split.
  - intros errors ok_count entry result. unfold result, verify_entry.
    destruct (Dict.get cp_to_name (codepoint entry)) as [actual|].
    + repeat match goal with |- context [if ?b then _ else _] => destruct b end;
        eauto.
    + eauto.
  - intros entries. unfold verify.
    pose proof (verify_fold_counts cp_to_name entries [] 0) as H.
    destruct (fold_left (verify_entry cp_to_name) entries ([], 0)). simpl in *. lia.
Qed.

(** C10.  An entry whose codepoint is in the index and whose claimed name
    is empty is verified: the empty string begins every name.  A comment
    that is only a parenthesized description has the empty claimed name. *)
Theorem empty_claimed_name_ok cp_to_name entry errors ok_count actual :
  Dict.get cp_to_name (codepoint entry) = Some actual ->
  claimed_normalized_of (comment entry) = [] ->
  verify_entry cp_to_name (errors, ok_count) entry = (errors, S ok_count) /\
  (forall ws description,
     forallb Str.isspace ws = true ->
     claimed_normalized_of (ws ++ lit "(" ++ description) = []).
Proof.
  intros G E. split.
  - rewrite (verify_entry_present _ _ _ _ G). cbv zeta. rewrite E.
    rewrite startswith_nil. cbn [orb]. destruct (Str.eqb [] actual); reflexivity.
  - intros ws description Hws. unfold claimed_normalized_of.
    now rewrite normalizer_parenthesized.
Qed.

Lemma empty_claimed_name_ok_witness :
  verify_entry sample_index ([], 0) (sample_entry "F0006" "(person)") = ([], 1).
Proof.
  exact (proj1 (@empty_claimed_name_ok sample_index
                  (sample_entry "F0006" "(person)")
                  [] 0 (lit "account") eq_refl eq_refl)).
Defined.

(** ** The lookup builder *)

Lemma retained_fields icon :
  retained icon = true ->
  exists cp name, icon_codepoint icon = Some cp /\ icon_name icon = Some name.
Proof.
  unfold retained. destruct (icon_codepoint icon) as [cp|]; [|discriminate].
  destruct (icon_name icon) as [name|]; [eauto|].
  now rewrite andb_false_r.
Qed.

(** C5.  The lookup builder skips a record that lacks a codepoint or a
    name; the keys of the index are the upper-cased codepoints of the
    records it keeps; of the records with one key the last one gives the
    value; and a key of the index is looked up to the name of that record. *)
Theorem lookup_builder (mdi_data : list IconRecord) :
  (forall l1 icon l2,
     mdi_data = l1 ++ icon :: l2 ->
     icon_codepoint icon = None \/ icon_name icon = None ->
     build_codepoint_lookup mdi_data = build_codepoint_lookup (l1 ++ l2)) /\
  (forall k,
     In k (Dict.keys (build_codepoint_lookup mdi_data)) <->
     exists icon cp,
       In icon mdi_data /\ retained icon = true /\
       icon_codepoint icon = Some cp /\ k = Str.upper cp) /\
  (forall l1 icon l2 cp name,
     mdi_data = l1 ++ icon :: l2 ->
     icon_codepoint icon = Some cp -> icon_name icon = Some name ->
     cp <> [] -> name <> [] ->
     (forall later, In later l2 -> retained later = true ->
                    key_of later <> Str.upper cp) ->
     Dict.get (build_codepoint_lookup mdi_data) (Str.upper cp) = Some name) /\
  (forall k,
     In k (Dict.keys (build_codepoint_lookup mdi_data)) ->
     exists l1 icon l2 cp name,
       mdi_data = l1 ++ icon :: l2 /\
       icon_codepoint icon = Some cp /\ icon_name icon = Some name /\
       Str.upper cp = k /\
       (forall later, In later l2 -> retained later = true -> key_of later <> k) /\
       Dict.get (build_codepoint_lookup mdi_data) k = Some name).
Proof.
  repeat split.
  - intros l1 icon l2 -> H. now apply lookup_skips, missing_field_skipped.
  - intros H. apply lookup_fold_keys in H as [[] | [icon [Hi [R K]]]].
    destruct (retained_fields _ R) as [cp [name [Hc Hn]]].
    exists icon, cp. repeat split; try assumption.
    unfold key_of in K. now rewrite Hc in K.
  - intros [icon [cp [Hi [R [Hc ->]]]]]. apply lookup_fold_keys. right.
    exists icon. repeat split; try assumption. unfold key_of. now rewrite Hc.
  - intros l1 icon l2 cp name -> Hc Hn Hcp Hname Hlater.
    assert (retained icon = true) as R.
    { unfold retained. rewrite Hc, Hn. simpl.
      destruct cp; [congruence|]. now destruct name. }
    assert (key_of icon = Str.upper cp) as K by (unfold key_of; now rewrite Hc).
    rewrite <- K in *. rewrite lookup_last_wins by assumption. now rewrite Hn.
  - intros k H. apply lookup_present in H
      as (l1 & icon & l2 & E & R & K & Hlater & G).
    destruct (retained_fields _ R) as [cp [name [Hc Hn]]].
    exists l1, icon, l2, cp, name. repeat split; try assumption.
    + unfold key_of in K. now rewrite Hc in K.
    + now rewrite Hn in G.
Qed.

Lemma lookup_builder_witness :
  Dict.get
    (build_codepoint_lookup
       [ {| icon_codepoint := Some (lit "f0006"); icon_name := Some (lit "account") |};
         {| icon_codepoint := None; icon_name := Some (lit "home") |};
         {| icon_codepoint := Some (lit "F0006"); icon_name := Some (lit "account-box") |} ])
    (lit "F0006")
  = Some (lit "account-box").
Proof.
  apply (proj1 (proj2 (proj2 (lookup_builder _)))
           [ {| icon_codepoint := Some (lit "f0006"); icon_name := Some (lit "account") |};
             {| icon_codepoint := None; icon_name := Some (lit "home") |} ]
           {| icon_codepoint := Some (lit "F0006"); icon_name := Some (lit "account-box") |}
           [] (lit "F0006") (lit "account-box") eq_refl eq_refl eq_refl);
    try discriminate.
  intros later [].
Defined.

(** ** The run *)

(** C2, as stated, fails when both files are missing: the declaration
    file is looked for first, and the run exits with 1, not with 2. *)
Lemma exit_status_both_missing :
  sample_run None None
  = ([lit "ERROR: Cannot find scripts/regen_mdi_fonts.sh"], 1) /\
  ~ (snd (sample_run None None) = 2 <->
     cache_unusable sample_cache_file sample_load (sample_fs None None)).
Proof.
  split; [reflexivity|]. intros [_ H].
  assert (snd (sample_run None None) = 2) as E by (apply H; now left).
  discriminate.
Qed.

Ltac settle_cases :=
  repeat first [progress intros | split];
  repeat match goal with
         | H : exists _, _ |- _ => destruct H
         | H : _ /\ _ |- _ => destruct H
         | H : _ \/ _ |- _ => destruct H
         end;
  try discriminate; try congruence; eauto 6.

(** C2 (amended).  The exit status is 0 exactly when both files load and
    the verification finds no error (every declaration is verified); it
    is 1 exactly when the declaration file is missing, or both files load
    and at least one INVALID or MISMATCH error is found; it is 2 exactly
    when the declaration file is there and the metadata cache is missing
    or cannot be loaded, and then nothing but the complaint about the
    cache is printed: no declaration is compared. *)
Theorem exit_status regen_script MDI_CACHE_FILE json_gz_load fs :
  let run := script regen_script MDI_CACHE_FILE json_gz_load fs in
  let checked := verification regen_script MDI_CACHE_FILE json_gz_load fs in
  (snd run = 0 <-> exists ok_count, checked = Some ([], ok_count)) /\
  (snd run = 1 <->
   fs regen_script = None \/
   exists err errors ok_count, checked = Some (err :: errors, ok_count)) /\
  (snd run = 2 <->
   fs regen_script <> None /\ cache_unusable MDI_CACHE_FILE json_gz_load fs) /\
  (snd run = 2 ->
   fst run = [lit "ERROR: MDI metadata cache not found at " ++ MDI_CACHE_FILE;
              lit "   Run: make update-mdi-cache"] \/
   exists e,
     fst run = [lit "Loading MDI metadata from cache...";
                lit "ERROR: Failed to load MDI metadata: " ++ e]).
Proof.
  intros run checked. unfold run, checked, verification, cache_unusable.
  destruct (fs regen_script) as [contents|] eqn:D.
  2:{ rewrite (run_no_declarations _ _ _ _ D). simpl. settle_cases. }
  destruct (fs MDI_CACHE_FILE) as [bytes|] eqn:C.
  2:{ rewrite (run_no_cache _ _ _ _ D C). simpl. settle_cases. }
  destruct (json_gz_load bytes) as [e|data] eqn:L.
  { rewrite (run_bad_cache _ _ _ _ D C L). simpl. settle_cases. }
  rewrite (run_verified _ _ _ _ D C L).
  destruct (verify (build_codepoint_lookup data) (parse_regen_script contents))
    as [[|err errors] ok_count]; simpl; settle_cases.
Qed.

(** C8.  The report and the exit status depend on nothing but the contents
    of the two files: two runs in file systems that agree on the
    declaration file and on the metadata cache print the same lines and
    exit with the same status. *)
Theorem run_depends_on_two_files regen_script MDI_CACHE_FILE json_gz_load
    (fs1 fs2 : FileSystem) :
  fs1 regen_script = fs2 regen_script ->
  fs1 MDI_CACHE_FILE = fs2 MDI_CACHE_FILE ->
  script regen_script MDI_CACHE_FILE json_gz_load fs1
  = script regen_script MDI_CACHE_FILE json_gz_load fs2 /\
  verification regen_script MDI_CACHE_FILE json_gz_load fs1
  = verification regen_script MDI_CACHE_FILE json_gz_load fs2.
Proof.
  intros D C. unfold script, main, fetch_mdi_metadata, verification.
  now rewrite D, C.
Qed.

Lemma run_depends_on_two_files_witness :
  script sample_regen_script sample_cache_file sample_load
    (sample_fs (Some sample_declarations) (Some (lit "metadata")))
  = script sample_regen_script sample_cache_file sample_load
      (sample_fs_more (Some sample_declarations) (Some (lit "metadata"))).
Proof.
  exact (proj1 (@run_depends_on_two_files
                  sample_regen_script sample_cache_file sample_load
                  (sample_fs (Some sample_declarations) (Some (lit "metadata")))
                  (sample_fs_more (Some sample_declarations) (Some (lit "metadata")))
                  eq_refl eq_refl)).
Defined.

(** ** The declaration parser *)

Lemma lines_of_concat s : List.concat (lines_of s) = s.
Proof.
  induction s as [|c s IH]; simpl; [reflexivity|].
  destruct (Ascii.eqb c Re.LF).
  - simpl. now rewrite IH.
  - destruct (lines_of s) as [|l ls]; simpl in *; now rewrite <- IH.
Qed.



(** ** The end-to-end scenarios of the specification *)

Example scenario_verified :
  let run := sample_run (Some (sample_line "F0006" "account")) (Some (lit "metadata")) in
  snd run = 0 /\
  verification sample_regen_script sample_cache_file sample_load
    (sample_fs (Some (sample_line "F0006" "account")) (Some (lit "metadata")))
  = Some ([], 1).
Proof. split; reflexivity. Qed.

Example scenario_mismatch :
  let run := sample_run (Some (sample_line "F0006" "home")) (Some (lit "metadata")) in
  snd run = 1 /\
  verification sample_regen_script sample_cache_file sample_load
    (sample_fs (Some (sample_line "F0006" "home")) (Some (lit "metadata")))
  = Some ([MISMATCH 1 (lit "F0006") (lit "home") (lit "account") (lit "home")], 0).
Proof. split; reflexivity. Qed.

Example scenario_invalid :
  let run := sample_run (Some (sample_line "FFFFF" "account")) (Some (lit "metadata")) in
  snd run = 1 /\
  verification sample_regen_script sample_cache_file sample_load
    (sample_fs (Some (sample_line "FFFFF" "account")) (Some (lit "metadata")))
  = Some ([INVALID 1 (lit "FFFFF") (lit "account")
             (lit "Codepoint FFFFF does not exist in MDI!")], 0).
Proof. split; reflexivity. Qed.

Example scenario_no_cache :
  sample_run (Some sample_declarations) None
  = ([lit "ERROR: MDI metadata cache not found at assets/mdi-icon-metadata.json.gz";
      lit "   Run: make update-mdi-cache"], 2).
Proof. reflexivity. Qed.

Example scenario_bad_cache :
  sample_run (Some sample_declarations) (Some (lit "garbage"))
  = ([lit "Loading MDI metadata from cache...";
      lit "ERROR: Failed to load MDI metadata: Not a gzipped file"], 2).
Proof. reflexivity. Qed.

(** The report of a run on the three declarations. *)
Example scenario_report :
  sample_run (Some sample_declarations) (Some (lit "metadata"))
  = ([lit "Loading MDI metadata from cache...";
      lit "  Found 2 icons in MDI library";
      [Re.LF] ++ lit "Parsing scripts/regen_mdi_fonts.sh...";
      lit "  Found 3 icon entries" ++ [Re.LF];
      rule;
      lit "VERIFICATION RESULTS";
      rule;
      [Re.LF] ++ lit "✓ OK: 1 icons verified correctly";
      [Re.LF] ++ lit "✗ ERRORS: 2 icons have issues:" ++ [Re.LF];
      lit "  Line 3: NAME MISMATCH";
      lit "    Codepoint: 0xF0006";
      lit "    Comment says: home";
      lit "    Actually is:  account";
      lit "    → 'home' is at 0xF02DC";
      [];
      lit "  Line 4: INVALID CODEPOINT";
      lit "    Codepoint: 0xFFFFF";
      lit "    Comment: account (person)";
      [];
      rule], 1).
Proof. reflexivity. Qed.

(** The matcher on lines the pattern reads in more than one way, or
    barely: the last codepoint before a comment mark wins, a blank
    comment is empty, and a mark with nothing after it is no comment. *)
Example two_marks :
  parse_line 1 (lit "MDI_ICONS=0xF1 # see 0xF2 # x")
  = Some {| line := 1; codepoint := lit "F2"; comment := lit "x";
            raw := lit "MDI_ICONS=0xF1 # see 0xF2 # x" |}.
Proof. reflexivity. Qed.

Example mark_in_comment :
  parse_line 1 (lit "MDI_ICONS=0xF1 # a # b" ++ [Re.LF])
  = Some {| line := 1; codepoint := lit "F1"; comment := lit "a # b";
            raw := lit "MDI_ICONS=0xF1 # a # b" |}.
Proof. reflexivity. Qed.

Example blank_comment :
  parse_line 1 (lit "MDI_ICONS=0xF1 #   " ++ [Re.LF])
  = Some {| line := 1; codepoint := lit "F1"; comment := [];
            raw := lit "MDI_ICONS=0xF1 #" |}.
Proof. reflexivity. Qed.

Example no_comment :
  parse_line 1 (lit "MDI_ICONS=0xF1 #" ++ [Re.LF]) = None.
Proof. reflexivity. Qed.

(** * Further properties of the script *)

(** ** The index and its inverse *)

Lemma upper_char_idem c : Str.upper_char (Str.upper_char c) = Str.upper_char c.
Proof. by_ascii_cases c. Qed.

Lemma upper_idem s : Str.upper (Str.upper s) = Str.upper s.
Proof.
  unfold Str.upper. rewrite map_map. apply map_ext_in.
  intros c _. apply upper_char_idem.
Qed.

Lemma set_in d k v k' v' :
  In (k', v') (Dict.set d k v) -> (k' = k /\ v' = v) \/ In (k', v') d.
Proof.
  induction d as [|[k0 v0] d IH]; simpl.
  - intros [[= <- <-] | []]. now left.
  - destruct (Str.eqb k0 k) eqn:E.
    + apply eqb_eq in E. subst k0. intros [[= <- <-] | H]; auto.
    + intros [H | H]; [auto|]. destruct (IH H); auto.
Qed.

Lemma set_nodup d k v : NoDup (Dict.keys d) -> NoDup (Dict.keys (Dict.set d k v)).
Proof.
  intros H. rewrite keys_set. unfold Dict.mem.
  destruct (Dict.get d k) eqn:G; [assumption|].
  apply NoDup_app; [assumption | repeat constructor; intros [] |].
  intros x Hx [<- | []]. apply get_in_keys in Hx. congruence.
Qed.

Lemma set_length d k v :
  List.length (Dict.set d k v) <= S (List.length d).
Proof.
  induction d as [|[k0 v0] d IH]; simpl; [lia|].
  destruct (Str.eqb k0 k); simpl; lia.
Qed.

Lemma in_get d k v : NoDup (Dict.keys d) -> In (k, v) d -> Dict.get d k = Some v.
Proof.
  induction d as [|[k0 v0] d IH]; simpl; [intros _ []|].
  intros N H. inversion N as [|? ? Hk Nd]; subst.
  destruct (Str.eqb k0 k) eqn:E.
  - apply eqb_eq in E. subst k0. destruct H as [[= <-] | H]; [reflexivity|].
    exfalso. apply Hk. unfold Dict.keys. apply in_map_iff. now exists (k, v).
  - destruct H as [[= -> _] | H]; [now rewrite eqb_refl in E | now apply IH].
Qed.

Lemma get_in d k v : Dict.get d k = Some v -> In (k, v) d.
Proof.
  induction d as [|[k0 v0] d IH]; simpl; [discriminate|].
  destruct (Str.eqb k0 k) eqn:E.
  - apply eqb_eq in E. subst k0. intros [= ->]. now left.
  - intros H. right. now apply IH.
Qed.

Lemma lookup_step_invariant d icon :
  NoDup (Dict.keys d) /\ Forall index_pair_ok d ->
  NoDup (Dict.keys (lookup_step d icon)) /\ Forall index_pair_ok (lookup_step d icon).
Proof.
  intros [N F]. destruct (retained icon) eqn:R.
  - rewrite lookup_step_retained by assumption. split; [now apply set_nodup|].
    apply Forall_forall. intros [k v] H. apply set_in in H as [[-> ->] | H].
    + unfold retained in R. apply andb_true_iff in R as [Rc Rn].
      unfold index_pair_ok, key_of. simpl. repeat split.
      * intros E. rewrite <- truthy_upper, E in Rc. discriminate.
      * apply upper_idem.
      * intros E. rewrite E in Rn. discriminate.
    + rewrite Forall_forall in F. now apply F.
  - now rewrite lookup_step_skipped.
Qed.

Lemma lookup_fold_invariant l d :
  NoDup (Dict.keys d) /\ Forall index_pair_ok d ->
  NoDup (Dict.keys (fold_left lookup_step l d))
  /\ Forall index_pair_ok (fold_left lookup_step l d).
Proof.
  revert d. induction l as [|i l IH]; intros d H; simpl; [assumption|].
  apply IH. now apply lookup_step_invariant.
Qed.

Lemma lookup_fold_length l d :
  List.length (fold_left lookup_step l d) <= List.length d + List.length l.
Proof.
  revert d. induction l as [|i l IH]; intros d; simpl; [lia|].
  specialize (IH (lookup_step d i)).
  assert (List.length (lookup_step d i) <= S (List.length d)).
  { unfold lookup_step. destruct (_ && _); [apply set_length | lia]. }
  lia.
Qed.

Lemma index_nodup mdi_data : NoDup (Dict.keys (build_codepoint_lookup mdi_data)).
Proof.
  destruct (@lookup_fold_invariant mdi_data []) as [N _]; [split; constructor|].
  exact N.
Qed.

(** X1.  The index has each key once; every key is a non-empty string
    without lower-case letters, every name is non-empty, looking a key up
    gives the name it is paired with, and the index has no more pairs than
    the metadata has records. *)
Theorem index_invariants (mdi_data : list IconRecord) :
  let index := build_codepoint_lookup mdi_data in
  NoDup (Dict.keys index) /\
  (forall k v,
     In (k, v) (Dict.items index) ->
     k <> [] /\ Str.upper k = k /\ v <> [] /\ Dict.get index k = Some v) /\
  List.length (Dict.items index) <= List.length mdi_data.
Proof.
  intros index.
  destruct (@lookup_fold_invariant mdi_data []) as [N F];
    [split; constructor|].
  fold (build_codepoint_lookup mdi_data) in N, F. fold index in N, F.
  repeat split; try assumption.
  - rewrite Forall_forall in F. now apply (F (k, v)).
  - rewrite Forall_forall in F. now apply (F (k, v)).
  - rewrite Forall_forall in F. now apply (F (k, v)).
  - now apply in_get.
  - apply (lookup_fold_length mdi_data []).
Qed.

(** A key of later records hides the earlier ones, and only it. *)
Lemma lookup_fold_get l d k :
  Dict.get (fold_left lookup_step l d) k =
  match Dict.get (fold_left lookup_step l []) k with
  | Some v => Some v
  | None => Dict.get d k
  end.
Proof.
  revert d. induction l as [|i l IH]; intros d; simpl; [reflexivity|].
  rewrite (IH (lookup_step d i)), (IH (lookup_step [] i)).
  destruct (Dict.get (fold_left lookup_step l []) k); [reflexivity|].
  destruct (retained i) eqn:R.
  - rewrite !lookup_step_retained by assumption. simpl.
    destruct (Str.eqb (key_of i) k) eqn:E.
    + apply eqb_eq in E. subst k. apply get_set_same.
    + apply eqb_neq in E. now apply get_set_other.
  - now rewrite !lookup_step_skipped.
Qed.

(** X2.  The index of two lists of records put end to end: a key is looked
    up in the index of the second list, and in the index of the first one
    only when the second does not have it. *)
Theorem index_of_appended (first second : list IconRecord) (k : str) :
  Dict.get (build_codepoint_lookup (first ++ second)) k =
  match Dict.get (build_codepoint_lookup second) k with
  | Some name => Some name
  | None => Dict.get (build_codepoint_lookup first) k
  end.
Proof.
  unfold build_codepoint_lookup. rewrite fold_left_app. apply lookup_fold_get.
Qed.

Lemma invert_fold_sound l acc name cp :
  Dict.get (fold_left (fun d kv => Dict.set d (snd kv) (fst kv)) l acc) name
  = Some cp ->
  In (cp, name) l \/ Dict.get acc name = Some cp.
Proof.
  revert acc. induction l as [|[k v] l IH]; intros acc; simpl; [auto|].
  intros H. apply IH in H as [H | H]; [auto|].
  destruct (Str.eqb v name) eqn:E.
  - apply eqb_eq in E. subst v. rewrite get_set_same in H.
    injection H as ->. auto.
  - apply eqb_neq in E. rewrite get_set_other in H by assumption. auto.
Qed.

Lemma set_keys_in d k v x : In x (Dict.keys d) -> In x (Dict.keys (Dict.set d k v)).
Proof.
  rewrite keys_set. destruct (Dict.mem d k); [auto|].
  intros H. apply in_or_app. now left.
Qed.

Lemma invert_fold_keys l acc name :
  (exists cp, In (cp, name) l) \/ In name (Dict.keys acc) ->
  In name (Dict.keys (fold_left (fun d kv => Dict.set d (snd kv) (fst kv)) l acc)).
Proof.
  revert acc. induction l as [|[k v] l IH]; intros acc; simpl.
  - intros [[cp []] | H]. exact H.
  - intros [[cp [[= -> ->] | H]] | H]; apply IH.
    + right. apply get_in_keys. rewrite get_set_same. discriminate.
    + left. now exists cp.
    + right. now apply set_keys_in.
Qed.

Lemma invert_sound mdi_data name cp :
  Dict.get (invert (build_codepoint_lookup mdi_data)) name = Some cp ->
  Dict.get (build_codepoint_lookup mdi_data) cp = Some name.
Proof.
  intros H. unfold invert in H.
  apply invert_fold_sound in H as [H | H]; [|discriminate].
  apply in_get; [apply index_nodup | exact H].
Qed.

Lemma invert_complete mdi_data cp name :
  Dict.get (build_codepoint_lookup mdi_data) cp = Some name ->
  exists cp', Dict.get (invert (build_codepoint_lookup mdi_data)) name = Some cp'
              /\ Dict.get (build_codepoint_lookup mdi_data) cp' = Some name.
Proof.
  intros G. apply get_in in G.
  assert (In name (Dict.keys (invert (build_codepoint_lookup mdi_data)))) as K.
  { apply invert_fold_keys. left. now exists cp. }
  apply get_in_keys in K.
  destruct (Dict.get (invert (build_codepoint_lookup mdi_data)) name)
    as [cp'|] eqn:G'; [|congruence].
  exists cp'. split; [reflexivity | now apply invert_sound].
Qed.

(** X3.  The inverse index, which the report takes its hints from, holds
    only true pairs: a name it maps to a codepoint is the name the index
    holds for that codepoint, and every name of the index is mapped to
    some codepoint that has it. *)
Theorem inverse_index (mdi_data : list IconRecord) :
  let cp_to_name := build_codepoint_lookup mdi_data in
  let name_to_cp := invert cp_to_name in
  (forall name cp,
     Dict.get name_to_cp name = Some cp -> Dict.get cp_to_name cp = Some name) /\
  (forall cp name,
     Dict.get cp_to_name cp = Some name ->
     exists cp', Dict.get name_to_cp name = Some cp'
                 /\ Dict.get cp_to_name cp' = Some name).
Proof.
  split; [apply invert_sound | apply invert_complete].
Qed.

(** ** The verification loop *)

(** A step of the loop adds what the entry adds on its own. *)
Lemma verify_entry_adds cp_to_name errors ok_count entry :
  verify_entry cp_to_name (errors, ok_count) entry =
  (errors ++ entry_errors cp_to_name entry, ok_count + entry_ok cp_to_name entry).
Proof.
  unfold entry_errors, entry_ok, verify_entry.
  destruct (Dict.get cp_to_name (codepoint entry)) as [actual|].
  - repeat match goal with |- context [if ?b then _ else _] => destruct b end;
      simpl; rewrite ?app_nil_r, ?Nat.add_0_r, ?Nat.add_1_r; reflexivity.
  - simpl. now rewrite Nat.add_0_r.
Qed.

Lemma verify_fold cp_to_name entries errors ok_count :
  fold_left (verify_entry cp_to_name) entries (errors, ok_count) =
  (errors ++ flat_map (entry_errors cp_to_name) entries,
   ok_count + list_sum (map (entry_ok cp_to_name) entries)).
Proof.
  revert errors ok_count.
  induction entries as [|e entries IH]; intros;
    cbn [fold_left flat_map map list_sum fold_right].
  - now rewrite app_nil_r, Nat.add_0_r.
  - rewrite verify_entry_adds, IH, <- app_assoc. f_equal.
    unfold list_sum. lia.
Qed.

Lemma verify_flat cp_to_name entries :
  verify cp_to_name entries =
  (flat_map (entry_errors cp_to_name) entries,
   list_sum (map (entry_ok cp_to_name) entries)).
Proof. unfold verify. now rewrite verify_fold. Qed.

(** X4.  Verifying two lists of entries one after the other gives the
    errors of the first followed by the errors of the second, and the sum
    of the two counts. *)
Theorem verify_appended cp_to_name (first second : list Entry) :
  verify cp_to_name (first ++ second) =
  (fst (verify cp_to_name first) ++ fst (verify cp_to_name second),
   snd (verify cp_to_name first) + snd (verify cp_to_name second)).
Proof.
  rewrite !verify_flat. simpl.
  now rewrite flat_map_app, map_app, list_sum_app.
Qed.

Lemma entry_errors_cases cp_to_name entry :
  match Dict.get cp_to_name (codepoint entry) with
  | None =>
      exists message,
        entry_errors cp_to_name entry
        = [INVALID (line entry) (codepoint entry) (comment entry) message]
        /\ entry_ok cp_to_name entry = 0
  | Some actual =>
      if Str.contains actual (claimed_normalized_of (comment entry))
      then entry_errors cp_to_name entry = [] /\ entry_ok cp_to_name entry = 1
      else entry_errors cp_to_name entry
           = [MISMATCH (line entry) (codepoint entry)
                (extract_icon_name_from_comment (comment entry))
                actual (comment entry)]
           /\ entry_ok cp_to_name entry = 0
  end.
Proof.
  unfold entry_errors, entry_ok.
  destruct (Dict.get cp_to_name (codepoint entry)) as [actual|] eqn:G.
  - rewrite (verify_entry_present _ _ _ _ G). cbv zeta.
    set (claimed := claimed_normalized_of (comment entry)).
    destruct (Str.eqb claimed actual) eqn:E.
    + apply eqb_eq in E. subst actual.
      assert (Str.contains claimed claimed = true) as ->; [|now split].
      apply contains_iff. exists [], []. now rewrite app_nil_r.
    + destruct (Str.startswith actual claimed) eqn:S.
      * assert (Str.contains actual claimed = true) as ->; [|now split].
        apply startswith_iff in S as [t ->]. apply contains_iff. now exists [], t.
      * simpl. destruct (Str.contains actual claimed); now split.
  - rewrite (verify_entry_absent _ _ _ _ G). simpl. eauto.
Qed.

(** X5.  An entry whose codepoint is in the index is counted as verified
    exactly when its claimed name, with hyphens for underscores and
    spaces, occurs somewhere in the actual name: the tests for equality
    and for a prefix accept nothing that the test for a substring does
    not. *)
Theorem verified_iff_substring cp_to_name entry errors ok_count actual :
  Dict.get cp_to_name (codepoint entry) = Some actual ->
  (verify_entry cp_to_name (errors, ok_count) entry = (errors, S ok_count) <->
   exists a b, actual = a ++ claimed_normalized_of (comment entry) ++ b).
Proof.
  intros G. rewrite verify_entry_adds, <- contains_iff.
  pose proof (entry_errors_cases cp_to_name entry) as H. rewrite G in H.
  destruct (Str.contains actual (claimed_normalized_of (comment entry)));
    destruct H as [-> ->].
  - rewrite app_nil_r, Nat.add_1_r. now split.
  - split; [|discriminate]. intros [= H _].
    apply (f_equal (@List.length _)) in H. rewrite length_app in H.
    simpl in H. lia.
Qed.

Lemma verified_iff_substring_witness :
  verify_entry sample_index ([], 0) (sample_entry "F0006" "coun") = ([], 1).
Proof.
  apply (@verified_iff_substring sample_index (sample_entry "F0006" "coun")
           [] 0 (lit "account") eq_refl).
  now exists (lit "ac"), (lit "t").
Defined.

(** X6.  An entry is reported as INVALID exactly when no record that the
    builder keeps has its codepoint, letter case in the metadata apart. *)
Theorem invalid_iff_unregistered mdi_data entry errors ok_count :
  (exists message,
     verify_entry (build_codepoint_lookup mdi_data) (errors, ok_count) entry
     = (errors ++ [INVALID (line entry) (codepoint entry) (comment entry) message],
        ok_count)) <->
  (forall icon cp,
     In icon mdi_data -> retained icon = true ->
     icon_codepoint icon = Some cp -> Str.upper cp <> codepoint entry).
Proof.
  set (index := build_codepoint_lookup mdi_data).
  assert (Dict.get index (codepoint entry) = None <->
          forall icon cp, In icon mdi_data -> retained icon = true ->
                          icon_codepoint icon = Some cp ->
                          Str.upper cp <> codepoint entry) as K.
  { split.
    - intros G icon cp Hi R Hc E.
      assert (In (codepoint entry) (Dict.keys index)) as Hk.
      { apply lookup_fold_keys. right. exists icon. repeat split; try assumption.
        unfold key_of. now rewrite Hc. }
      apply get_in_keys in Hk. congruence.
    - intros H. destruct (Dict.get index (codepoint entry)) eqn:G; [|reflexivity].
      exfalso.
      assert (In (codepoint entry) (Dict.keys index)) as Hk
        by (apply get_in_keys; congruence).
      apply lookup_fold_keys in Hk as [[] | [icon [Hi [R Hk]]]].
      destruct (retained_fields _ R) as [cp [name [Hc _]]].
      apply (H icon cp Hi R Hc). unfold key_of in Hk. now rewrite Hc in Hk. }
  rewrite <- K. rewrite verify_entry_adds.
  pose proof (entry_errors_cases index entry) as H.
  destruct (Dict.get index (codepoint entry)) as [actual|].
  - split; [|discriminate]. intros [message E]. exfalso.
    destruct (Str.contains actual (claimed_normalized_of (comment entry)));
      destruct H as [H1 H2]; rewrite H1, H2 in E.
    + injection E as E _. apply (f_equal (@List.length _)) in E.
      rewrite app_nil_r, length_app in E. simpl in E. lia.
    + injection E as E. apply app_inv_head in E. discriminate.
  - split; [reflexivity|]. intros _. destruct H as [message [-> ->]].
    exists message. now rewrite Nat.add_0_r.
Qed.

(** X7.  Every error the loop records is justified: an INVALID error is
    for an entry whose codepoint the index lacks, and a MISMATCH error is
    for an entry whose codepoint the index has, records the name the index
    holds and the normalizer's output for the comment, and the claimed
    name with hyphens does not occur in that name. *)
Theorem errors_justified cp_to_name (entries : list Entry) (err : Error) :
  In err (fst (verify cp_to_name entries)) ->
  exists entry,
    In entry entries /\
    match err with
    | INVALID ln cp text _ =>
        ln = line entry /\ cp = codepoint entry /\ text = comment entry /\
        Dict.get cp_to_name cp = None
    | MISMATCH ln cp claimed actual text =>
        ln = line entry /\ cp = codepoint entry /\ text = comment entry /\
        Dict.get cp_to_name cp = Some actual /\
        claimed = extract_icon_name_from_comment text /\
        Str.contains actual (claimed_normalized_of text) = false
    end.
Proof.
  rewrite verify_flat. simpl. intros H.
  apply in_flat_map in H as [entry [He H]]. exists entry. split; [assumption|].
  pose proof (entry_errors_cases cp_to_name entry) as C.
  destruct (Dict.get cp_to_name (codepoint entry)) as [actual|] eqn:G.
  - destruct (Str.contains actual (claimed_normalized_of (comment entry))) eqn:S;
      destruct C as [C _]; rewrite C in H.
    + destruct H.
    + destruct H as [<- | []]. auto 7.
  - destruct C as [message [C _]]. rewrite C in H.
    destruct H as [<- | []]. auto.
Qed.

Lemma errors_justified_witness :
  exists entry,
    In entry [sample_entry "FFFFF" "account"] /\
    1 = line entry /\ lit "FFFFF" = codepoint entry /\
    lit "account" = comment entry /\
    Dict.get sample_index (lit "FFFFF") = None.
Proof.
  apply (@errors_justified sample_index [sample_entry "FFFFF" "account"]
           (INVALID 1 (lit "FFFFF") (lit "account")
              (lit "Codepoint FFFFF does not exist in MDI!"))).
  now left.
Defined.

Lemma entry_errors_line cp_to_name entry err :
  In err (entry_errors cp_to_name entry) -> error_line err = line entry.
Proof.
  pose proof (entry_errors_cases cp_to_name entry) as C.
  destruct (Dict.get cp_to_name (codepoint entry)) as [actual|].
  - destruct (Str.contains actual (claimed_normalized_of (comment entry)));
      destruct C as [-> _]; [intros [] | intros [<- | []]; reflexivity].
  - destruct C as [message [-> _]]. intros [<- | []]. reflexivity.
Qed.

Lemma sorted_flat_errors cp_to_name entries :
  StronglySorted lt (map line entries) ->
  StronglySorted lt (map error_line (flat_map (entry_errors cp_to_name) entries)).
Proof.
  induction entries as [|e entries IH]; simpl; [constructor|].
  intros S. inversion S as [|? ? S' F]; subst. specialize (IH S').
  assert (forall err, In err (entry_errors cp_to_name e) -> error_line err = line e)
    as Hl by (intros err; apply entry_errors_line).
  assert (Forall (lt (line e))
            (map error_line (flat_map (entry_errors cp_to_name) entries))) as Hlater.
  { apply Forall_forall. intros n Hn. apply in_map_iff in Hn as [err [<- Hn]].
    apply in_flat_map in Hn as [e' [He' Hn]].
    rewrite (entry_errors_line _ _ _ Hn). rewrite Forall_forall in F.
    apply F. now apply in_map. }
  pose proof (entry_errors_cases cp_to_name e) as C.
  destruct (Dict.get cp_to_name (codepoint e)) as [actual|].
  - destruct (Str.contains actual (claimed_normalized_of (comment e)));
      destruct C as [-> _]; simpl; [assumption | now constructor].
  - destruct C as [message [-> _]]. simpl. now constructor.
Qed.

(** X8.  The errors of a run are listed in the order of the file: their
    line numbers increase strictly, so no line is reported twice. *)
Theorem errors_in_file_order cp_to_name (contents : str) :
  StronglySorted lt
    (map error_line (fst (verify cp_to_name (parse_regen_script contents)))).
Proof.
  rewrite verify_flat. simpl. apply sorted_flat_errors.
  rewrite parse_regen_script_entries. apply entries_from_sorted.
Qed.

(** ** The declaration parser *)

Lemma hexdigit_upper c : Re.hexdigit c = true -> upper_hexdigit (Str.upper_char c) = true.
Proof. by_ascii_cases c. Qed.

Lemma strip_nonempty_prefix a b : Str.strip a <> [] -> Str.strip (a ++ b) <> [].
Proof.
  unfold Str.strip. intros H.
  assert (Str.lstrip a <> []) as Ha by (intros E; now rewrite E in H).
  rewrite lstrip_app by assumption.
  destruct (Str.lstrip a) as [|c t] eqn:E; [congruence|].
  destruct (rstrip_decomp ((c :: t) ++ b)) as [w [Hw Hs]].
  intros N. rewrite N in Hw. simpl in Hw. subst w.
  simpl in Hs. apply andb_true_iff in Hs as [Hc _].
  pose proof (lstrip_starts_clean a) as Hclean. rewrite E in Hclean.
  simpl in Hclean. congruence.
Qed.

(** X9.  Every entry of the parser is well formed: its line number is
    one of the file's, its codepoint is a non-empty string of digits and
    of capital letters from A to F, and its comment and raw line are
    trimmed, the raw line not being empty. *)
Theorem entries_well_formed (contents : str) (e : Entry) :
  In e (parse_regen_script contents) ->
  1 <= line e <= List.length (readlines contents) /\
  codepoint e <> [] /\ forallb upper_hexdigit (codepoint e) = true /\
  Str.strip (comment e) = comment e /\
  Str.strip (raw e) = raw e /\ raw e <> [].
Proof.
  rewrite parse_regen_script_entries. intros H.
  apply entries_from_in in H as [i [ln [Hn H]]].
  assert (i < List.length (readlines contents)) as Hi
    by (apply nth_error_Some; congruence).
  apply parse_line_sound in H
    as (Hl & Hr & pre & plus & mid & hex & q & ws1 & ws2 & text & post
        & -> & _ & _ & Hne & Hhex & _ & _ & _ & _ & _ & Hc & Ht).
  repeat split.
  - lia.
  - lia.
  - rewrite Hc. destruct hex; [congruence | discriminate].
  - rewrite Hc. unfold Str.upper. clear - Hhex.
    induction hex as [|c hex IH]; [reflexivity|].
    simpl in *. apply andb_true_iff in Hhex as [Hc Hh].
    now rewrite hexdigit_upper, IH.
  - rewrite Ht. apply strip_idem.
  - rewrite Hr. apply strip_idem.
  - rewrite Hr.
    destruct (lstrip_decomp pre) as [w [Ep Hw]].
    rewrite Ep, <- app_assoc, strip_app_space_l by assumption.
    destruct (Str.lstrip pre) as [|c t] eqn:L.
    + simpl app. now apply (strip_nonempty_prefix (lit "MDI_ICONS")).
    + rewrite <- L. apply strip_nonempty_prefix.
      unfold Str.strip. rewrite lstrip_clean by apply lstrip_starts_clean.
      rewrite L. intros N.
      destruct (rstrip_decomp (c :: t)) as [w' [Hw' Hs']]. rewrite N in Hw'.
      simpl in Hw'. subst w'. simpl in Hs'. apply andb_true_iff in Hs' as [Hc' _].
      pose proof (lstrip_starts_clean pre) as Hclean. rewrite L in Hclean.
      simpl in Hclean. congruence.
Qed.

Lemma entries_well_formed_witness :
  let e := {| line := 1; codepoint := lit "F0006"; comment := lit "account";
              raw := sample_line "F0006" "account" |} in
  1 <= line e <= List.length (readlines (sample_line "F0006" "account")) /\
  codepoint e <> [] /\ forallb upper_hexdigit (codepoint e) = true /\
  Str.strip (comment e) = comment e /\
  Str.strip (raw e) = raw e /\ raw e <> [].
Proof.
  intros e. apply (@entries_well_formed (sample_line "F0006" "account") e).
  now left.
Defined.

Lemma universal_newlines_no_cr s : ~ In Re.CR (universal_newlines s).
Proof.
  assert (forall n s, List.length s <= n -> ~ In Re.CR (universal_newlines s)) as H.
  { clear s. induction n as [|n IH]; intros s Hn.
    - destruct s; [intros [] | simpl in Hn; lia].
    - destruct s as [|c s]; [intros []|]. simpl in Hn. simpl.
      destruct (Ascii.eqb c Re.CR) eqn:E.
      + intros [H | H]; [discriminate|].
        destruct s as [|c' s]; [exact H|].
        destruct (Ascii.eqb c' Re.LF); revert H; apply IH; simpl in *; lia.
      + intros [H | H].
        * subst c. now rewrite Ascii.eqb_refl in E.
        * revert H. apply IH. lia. }
  now apply (H (List.length s)).
Qed.

Lemma lines_of_shape s ln :
  In ln (lines_of s) ->
  ln <> [] /\ forallb Re.dot (removelast ln) = true /\ forall c, In c ln -> In c s.
Proof.
  revert ln. induction s as [|c s IH]; intros ln; simpl; [intros []|].
  destruct (Ascii.eqb c Re.LF) eqn:E.
  - intros [<- | H].
    + repeat split; [discriminate | intros d [<- | []]; now left].
    + destruct (IH ln H) as (H1 & H2 & H3). repeat split; auto.
  - destruct (lines_of s) as [|l ls] eqn:L.
    + intros [<- | []]. repeat split; [discriminate | intros d [<- | []]; now left].
    + intros [<- | H].
      * destruct (IH l (or_introl eq_refl)) as (H1 & H2 & H3).
        repeat split; [discriminate | |].
        -- destruct l as [|d l]; [congruence|].
           change (removelast (c :: d :: l)) with (c :: removelast (d :: l)).
           cbn [forallb]. apply andb_true_iff. split; [|exact H2].
           unfold Re.dot. now rewrite E.
        -- intros d [<- | Hd]; [now left | right; now apply H3].
      * destruct (IH ln (or_intror H)) as (H1 & H2 & H3). repeat split; auto.
Qed.

(** X10.  The lines the parser goes through: none is empty, none has a
    carriage return, a newline stands only at the end of a line, and the
    lines put end to end are the text of the file with its line ends read
    as newlines. *)
Theorem lines_read (contents : str) :
  (forall ln,
     In ln (readlines contents) ->
     ln <> [] /\ ~ In Re.CR ln /\ forallb Re.dot (removelast ln) = true) /\
  List.concat (readlines contents) = universal_newlines contents.
Proof.
  split; [|apply lines_of_concat].
  intros ln H. apply lines_of_shape in H as (H1 & H2 & H3).
  repeat split; try assumption.
  intros Hc. apply H3 in Hc. now apply universal_newlines_no_cr in Hc.
Qed.

(** X11.  What stands before [MDI_ICONS] on a line does not matter: a
    declaration with one comment mark that is commented out, or indented,
    or follows other text, gives the codepoint and the comment it gives
    alone on the line. *)
Theorem text_before_declaration_ignored
    n pre plus mid hex q ws1 text eol :
  forallb Re.dot pre = true ->
  (plus = [] \/ plus = lit "+") ->
  forallb Re.dot mid = true ->
  hex <> [] -> forallb Re.hexdigit hex = true ->
  (q = [] \/ q = [Re.dquote]) ->
  forallb Re.space ws1 = true ->
  text <> [] ->
  forallb Re.dot text = true ->
  existsb (Ascii.eqb "#") text = false ->
  line_end eol ->
  let declaration := lit "MDI_ICONS" ++ plus ++ lit "=" ++ mid ++ lit "0x" ++ hex
                     ++ q ++ ws1 ++ lit "#" ++ text ++ eol in
  exists e e',
    parse_line n declaration = Some e /\
    parse_line n (pre ++ declaration) = Some e' /\
    codepoint e' = codepoint e /\ comment e' = comment e.
Proof.
  intros Hpre Hplus Hmid Hne Hhex Hq Hws1 Hte Htd Hth He declaration.
  pose proof (@parse_line_exact n [] plus mid hex q ws1 text eol eq_refl
                Hplus Hmid Hne Hhex Hq Hws1 Hte Htd Hth He) as H0.
  pose proof (@parse_line_exact n pre plus mid hex q ws1 text eol Hpre
                Hplus Hmid Hne Hhex Hq Hws1 Hte Htd Hth He) as H1.
  cbv zeta in H0, H1. cbn [app] in H0.
  eexists. eexists. split; [exact H0|]. split; [exact H1|]. split; reflexivity.
Qed.

Lemma text_before_declaration_ignored_witness :
  exists e e',
    parse_line 3 (lit "MDI_ICONS+=,0xF0006 # account" ++ [Re.LF]) = Some e /\
    parse_line 3 (lit "# " ++ lit "MDI_ICONS+=,0xF0006 # account" ++ [Re.LF])
    = Some e' /\
    codepoint e' = codepoint e /\ comment e' = comment e.
Proof.
  apply (@text_before_declaration_ignored 3 (lit "# ") (lit "+") (lit ",")
           (lit "F0006") [] (lit " ") (lit " account") [Re.LF]);
    try reflexivity; try discriminate; auto.
  now right.
Defined.

(** ** The name normalizer *)

Lemma lower_char_not_upper c : Str.isupper (Str.lower_char c) = false.
Proof. by_ascii_cases c. Qed.

Lemma rstrip_length s : List.length (Str.rstrip s) <= List.length s.
Proof.
  destruct (rstrip_decomp s) as [w [E _]].
  rewrite E at 2. rewrite length_app. lia.
Qed.

Lemma strip_length s : List.length (Str.strip s) <= List.length s.
Proof.
  destruct (strip_decomp s) as [w1 [w2 [E _]]].
  rewrite E at 2. rewrite !length_app. lia.
Qed.

Lemma split_head_length sep s :
  List.length (Str.split_head sep s) <= List.length s.
Proof.
  destruct (split_head_prefix sep s) as [r E].
  rewrite E at 2. rewrite length_app. lia.
Qed.

(** X12.  What the normalizer returns has no opening parenthesis and no
    " - " in it, neither begins nor ends with white space, has no capital
    letter, and is not longer than the comment. *)
Theorem normalizer_output (comment : str) :
  let name := extract_icon_name_from_comment comment in
  Str.contains name (lit "(") = false /\
  Str.contains name (lit " - ") = false /\
  Str.strip name = name /\
  forallb (fun c => negb (Str.isupper c)) name = true /\
  List.length name <= List.length comment.
Proof.
  intros name. unfold name. repeat split.
  - apply normalizer_no_paren.
  - apply normalizer_no_dash.
  - apply normalizer_trimmed.
  - rewrite <- normalizer_lowercase. unfold Str.lower.
    induction (extract_icon_name_from_comment comment) as [|c s IH];
      [reflexivity|].
    simpl. now rewrite lower_char_not_upper, IH.
  - rewrite normalizer_unfold. unfold Str.lower. rewrite length_map.
    eapply Nat.le_trans; [apply strip_length|].
    eapply Nat.le_trans; [apply split_head_length|].
    eapply Nat.le_trans; [apply strip_length|].
    apply split_head_length.
Qed.

Lemma split_head_map f sep s :
  (forall x c, In x sep -> Ascii.eqb x (f c) = Ascii.eqb x c) ->
  Str.split_head sep (map f s) = map f (Str.split_head sep s).
Proof.
  intros Hf. induction s as [|c s IH]; [reflexivity|].
  change (Str.split_head sep (map f (c :: s))) with
    (if Str.startswith (map f (c :: s)) sep then []
     else f c :: Str.split_head sep (map f s)).
  rewrite (startswith_map f (c :: s) sep Hf), IH.
  simpl. now destruct (Str.startswith (c :: s) sep).
Qed.

Lemma split_head_lower_paren s :
  Str.split_head (lit "(") (Str.lower s) = Str.lower (Str.split_head (lit "(") s).
Proof.
  apply split_head_map. intros x c [<- | []]. apply lower_char_paren.
Qed.

Lemma split_head_lower_dash s :
  Str.split_head (lit " - ") (Str.lower s)
  = Str.lower (Str.split_head (lit " - ") s).
Proof.
  apply split_head_map. intros x c [<- | [<- | [<- | []]]];
    auto using lower_char_space, lower_char_hyphen.
Qed.

Lemma normalizer_lower s :
  extract_icon_name_from_comment (Str.lower s) = extract_icon_name_from_comment s.
Proof.
  unfold extract_icon_name_from_comment.
  rewrite split_head_lower_paren.
  rewrite (strip_lower (Str.split_head (lit "(") s)).
  rewrite split_head_lower_dash.
  rewrite (strip_lower (Str.split_head (lit " - ") _)).
  now rewrite lower_idem.
Qed.

(** X13.  The normalizer does not look at letter case: two comments that
    differ only in the case of their letters get the same name. *)
Theorem normalizer_ignores_case (comment comment' : str) :
  Str.lower comment = Str.lower comment' ->
  extract_icon_name_from_comment comment
  = extract_icon_name_from_comment comment'.
Proof.
  intros H. rewrite <- (normalizer_lower comment), H. apply normalizer_lower.
Qed.

Lemma normalizer_ignores_case_witness :
  extract_icon_name_from_comment (lit "Arrow-Up (UP)")
  = extract_icon_name_from_comment (lit "arrow-UP (up)").
Proof.
  apply (@normalizer_ignores_case (lit "Arrow-Up (UP)") (lit "arrow-UP (up)")).
  reflexivity.
Defined.

(** ** The report *)

Lemma report_error_block name_to_cp err out :
  report_error name_to_cp err out = (Returned tt, out ++ error_block name_to_cp err).
Proof.
  destruct err; unfold report_error, error_block, bind, print, ret; simpl.
  - now rewrite <- !app_assoc.
  - destruct (Dict.get name_to_cp (Str.replace_char "_" "-" claimed));
      now rewrite <- !app_assoc.
Qed.

Lemma for_each_blocks name_to_cp errors out :
  for_each errors (report_error name_to_cp) out
  = (Returned tt, out ++ flat_map (error_block name_to_cp) errors).
Proof.
  revert out. induction errors as [|e errors IH]; intros out.
  - simpl. unfold ret. now rewrite app_nil_r.
  - cbn [for_each flat_map]. unfold bind at 1.
    rewrite report_error_block, IH. now rewrite <- app_assoc.
Qed.

Lemma run_report regen_script MDI_CACHE_FILE json_gz_load fs contents bytes data :
  fs regen_script = Some contents ->
  fs MDI_CACHE_FILE = Some bytes ->
  json_gz_load bytes = inr data ->
  fst (script regen_script MDI_CACHE_FILE json_gz_load fs) =
  report_lines regen_script (List.length data)
    (List.length (parse_regen_script contents))
    (verify (build_codepoint_lookup data) (parse_regen_script contents))
    (invert (build_codepoint_lookup data)).
Proof.
  intros D C L. unfold report_lines.
  unfold script, main, fetch_mdi_metadata. rewrite D, C.
  unfold bind at 1 2 3 4. unfold print at 1. cbn iota beta. rewrite L.
  unfold bind at 1. unfold print at 1, ret at 1. cbn iota beta.
  destruct (verify (build_codepoint_lookup data) (parse_regen_script contents))
    as [errs ok].
  unfold bind, print, ret, sys_exit. cbn iota beta.
  destruct errs as [|e errs].
  - reflexivity.
  - rewrite for_each_blocks. cbn [fst snd].
    rewrite <- !app_assoc. reflexivity.
Qed.

(** X14.  The report of a run that loads both files: eight lines of
    preamble that give the numbers of icons, of entries and of verified
    entries, then either the line that all names match, or the number of
    errors and one block for each error in the order the errors were
    found, then a closing rule. *)
Theorem report_of_run regen_script MDI_CACHE_FILE json_gz_load fs
    contents bytes data :
  fs regen_script = Some contents ->
  fs MDI_CACHE_FILE = Some bytes ->
  json_gz_load bytes = inr data ->
  fst (script regen_script MDI_CACHE_FILE json_gz_load fs) =
  report_lines regen_script (List.length data)
    (List.length (parse_regen_script contents))
    (verify (build_codepoint_lookup data) (parse_regen_script contents))
    (invert (build_codepoint_lookup data)).
Proof. apply run_report. Qed.

Lemma report_of_run_witness :
  fst (sample_run (Some sample_declarations) (Some (lit "metadata"))) =
  report_lines sample_regen_script 2 3
    ([MISMATCH 3 (lit "F0006") (lit "home") (lit "account") (lit "home");
      INVALID 4 (lit "FFFFF") (lit "account (person)")
        (lit "Codepoint FFFFF does not exist in MDI!")], 1)
    (invert sample_index).
Proof.
  exact (@report_of_run sample_regen_script sample_cache_file sample_load
           (sample_fs (Some sample_declarations) (Some (lit "metadata")))
           sample_declarations (lit "metadata") sample_metadata
           eq_refl eq_refl eq_refl).
Defined.

(** X15.  The hint of a MISMATCH block is sound: the block has the line
    that says where the claimed name is exactly when some codepoint is
    registered under the claimed name (underscores read as hyphens), and
    the codepoint the line gives is registered under that name. *)
Theorem hint_is_registered (mdi_data : list IconRecord) ln cp claimed actual text :
  let index := build_codepoint_lookup mdi_data in
  let name := Str.replace_char "_" "-" claimed in
  let block := error_block (invert index) (MISMATCH ln cp claimed actual text) in
  let lines :=
    [lit "  Line " ++ Str.of_nat ln ++ lit ": NAME MISMATCH";
     lit "    Codepoint: 0x" ++ cp;
     lit "    Comment says: " ++ claimed;
     lit "    Actually is:  " ++ actual] in
  (exists correct_cp,
     block = lines ++ [lit "    → '" ++ claimed ++ lit "' is at 0x" ++ correct_cp]
             ++ [[]] /\
     Dict.get index correct_cp = Some name) \/
  (block = lines ++ [[]] /\ forall other, Dict.get index other <> Some name).
Proof.
  intros index name block lines. unfold block, error_block. fold name. fold lines.
  destruct (Dict.get (invert index) name) as [correct_cp|] eqn:G.
  - left. exists correct_cp. split; [reflexivity | now apply invert_sound].
  - right. split; [reflexivity|]. intros other H.
    destruct (invert_complete _ _ H) as [cp' [H' _]]. fold index name in H'.
    congruence.
Qed.

Ltac differ :=
  let H := fresh in intros H; cbv in H; discriminate H.

Lemma all_match_not_in_block name_to_cp err :
  ~ In all_match_line (error_block name_to_cp err).
Proof.
  destruct err; unfold error_block.
  - intros [H | [H | [H | [H | []]]]]; revert H; differ.
  - destruct (Dict.get name_to_cp (Str.replace_char "_" "-" claimed)).
    + intros [H | [H | [H | [H | [H | [H | []]]]]]]; revert H; differ.
    + intros [H | [H | [H | [H | [H | []]]]]]; revert H; differ.
Qed.

(** X16.  The report and the exit status agree: the line that says that
    all icon names match is printed exactly when the script exits with 0. *)
Theorem all_match_iff_success regen_script MDI_CACHE_FILE json_gz_load fs :
  let run := script regen_script MDI_CACHE_FILE json_gz_load fs in
  In all_match_line (fst run) <-> snd run = 0.
Proof.
  intros run. unfold run.
  destruct (fs regen_script) as [contents|] eqn:D.
  2:{ rewrite (run_no_declarations _ _ _ _ D). simpl.
      split; [intros [H | []]; revert H; differ | discriminate]. }
  destruct (fs MDI_CACHE_FILE) as [bytes|] eqn:C.
  2:{ rewrite (run_no_cache _ _ _ _ D C). simpl.
      split; [intros [H | [H | []]]; revert H; differ | discriminate]. }
  destruct (json_gz_load bytes) as [e|data] eqn:L.
  { rewrite (run_bad_cache _ _ _ _ D C L). simpl.
    split; [intros [H | [H | []]]; revert H; differ | discriminate]. }
  rewrite (run_verified _ _ _ _ D C L), (run_report _ _ _ _ D C L).
  unfold report_lines.
  destruct (fst (verify (build_codepoint_lookup data) (parse_regen_script contents)))
    as [|err errors].
  - split; [reflexivity|]. intros _. apply in_or_app. right. now left.
  - split; [|discriminate]. intros H. exfalso.
    apply in_app_or in H as [H | H].
    + simpl in H.
      repeat (destruct H as [H | H]; [revert H; differ|]). destruct H.
    + apply in_app_or in H as [[H | H] | [H | []]].
      * revert H. differ.
      * apply in_flat_map in H as [x [_ H]].
        now apply all_match_not_in_block in H.
      * revert H. differ.
Qed.

(** X17.  The script exits with 0, 1 or 2 and with nothing else, and it
    never exits without printing. *)
Theorem exit_status_range regen_script MDI_CACHE_FILE json_gz_load fs :
  let run := script regen_script MDI_CACHE_FILE json_gz_load fs in
  (snd run = 0 \/ snd run = 1 \/ snd run = 2) /\ fst run <> [].
Proof.
  intros run. unfold run.
  destruct (fs regen_script) as [contents|] eqn:D.
  2:{ rewrite (run_no_declarations _ _ _ _ D). simpl. split; [auto | discriminate]. }
  destruct (fs MDI_CACHE_FILE) as [bytes|] eqn:C.
  2:{ rewrite (run_no_cache _ _ _ _ D C). simpl. split; [auto | discriminate]. }
  destruct (json_gz_load bytes) as [e|data] eqn:L.
  { rewrite (run_bad_cache _ _ _ _ D C L). simpl. split; [auto | discriminate]. }
  rewrite (run_verified _ _ _ _ D C L), (run_report _ _ _ _ D C L).
  unfold report_lines.
  split; [|discriminate].
  destruct (fst (verify (build_codepoint_lookup data) (parse_regen_script contents)));
    auto.
Qed.

(** X18.  A declaration file in which no line has the shape of a
    declaration passes: with a cache that loads, nothing is verified,
    nothing is reported as an error and the script exits with 0. *)
Theorem no_declaration_passes regen_script MDI_CACHE_FILE json_gz_load fs
    contents bytes data :
  fs regen_script = Some contents ->
  fs MDI_CACHE_FILE = Some bytes ->
  json_gz_load bytes = inr data ->
  (forall ln, In ln (readlines contents) -> ~ declaration_shape ln) ->
  parse_regen_script contents = [] /\
  verification regen_script MDI_CACHE_FILE json_gz_load fs = Some ([], 0) /\
  snd (script regen_script MDI_CACHE_FILE json_gz_load fs) = 0.
Proof.
  intros D C L H.
  assert (parse_regen_script contents = []) as E.
  { destruct (parse_regen_script contents) as [|e l] eqn:P; [reflexivity|].
    exfalso. assert (In e (parse_regen_script contents)) as He
      by (rewrite P; now left).
    rewrite parse_regen_script_entries in He.
    apply entries_from_in in He as [i [ln [Hn Hp]]].
    apply (H ln); [now apply nth_error_In in Hn|].
    apply (parse_line_iff_shape (1 + i)). eauto. }
  split; [exact E|]. split.
  - unfold verification. now rewrite D, C, L, E.
  - rewrite (run_verified _ _ _ _ D C L), E. reflexivity.
Qed.

Lemma no_declaration_passes_witness :
  parse_regen_script (lit "#!/bin/sh" ++ [Re.LF] ++ lit "set -e" ++ [Re.LF]) = [] /\
  verification sample_regen_script sample_cache_file sample_load
    (sample_fs (Some (lit "#!/bin/sh" ++ [Re.LF] ++ lit "set -e" ++ [Re.LF]))
       (Some (lit "metadata")))
  = Some ([], 0) /\
  snd (sample_run (Some (lit "#!/bin/sh" ++ [Re.LF] ++ lit "set -e" ++ [Re.LF]))
         (Some (lit "metadata"))) = 0.
Proof.
  apply (@no_declaration_passes sample_regen_script sample_cache_file sample_load
           (sample_fs (Some (lit "#!/bin/sh" ++ [Re.LF] ++ lit "set -e" ++ [Re.LF]))
              (Some (lit "metadata")))
           (lit "#!/bin/sh" ++ [Re.LF] ++ lit "set -e" ++ [Re.LF])
           (lit "metadata") sample_metadata eq_refl eq_refl eq_refl).
  intros ln [<- | [<- | []]] S; apply search_iff_shape in S; now apply S.
Defined.
